(** * Support and resistance levels: the core of [app.py]

    A shallow embedding of [calculate_support_resistance] (app.py, lines
    80-105) and of the pandas, numpy and scikit-learn operations it calls,
    followed by the properties of the level pipeline.

    Prices are binary64 floats in the program.  The pipeline itself only
    copies and compares them (rolling maxima and minima, equality tests), so
    a finite float is modelled by the rational it denotes ([Q]) and a missing
    value (NaN) by [None].  Arithmetic on prices happens only inside the
    clustering routine of scikit-learn, which is taken here by its contract
    (classes [Externals] and [Contract]). *)

From Stdlib Require Import String.
From Stdlib Require Import List Arith Bool Lia ZArith QArith.
From Stdlib Require Import Permutation Sorted.
Import ListNotations.

Local Open Scope nat_scope.

(** ** Floats with NaN *)

Definition float := option Q.

Definition NaN : float := None.

(** Equality as the hash table behind [drop_duplicates] sees it: two NaN are
    the same key. *)
Definition float_eqb (a b : float) : bool :=
  match a, b with
  | None, None => true
  | Some x, Some y => Qeq_bool x y
  | _, _ => false
  end.

(** The elementwise [!=] of two float columns: a NaN differs from anything. *)
Definition float_neb (a b : float) : bool :=
  match a, b with
  | Some x, Some y => negb (Qeq_bool x y)
  | _, _ => true
  end.

Definition qmax (a b : Q) : Q := match (a ?= b)%Q with Lt => b | _ => a end.

Definition qmin (a b : Q) : Q := match (a ?= b)%Q with Gt => b | _ => a end.

(** ** Rolling windows: [Series.rolling(w).max()] and [.min()] *)

Module Rolling.

(** The [w] values that end at position [i]. *)
Definition window (w i : nat) (xs : list Q) : list Q :=
  firstn w (skipn (S i - w) xs).

Definition reduce (f : Q -> Q -> Q) (xs : list Q) : float :=
  match xs with
  | [] => NaN
  | x :: rest => Some (fold_left f rest x)
  end.

(** [min_periods] defaults to the window length: positions before the first
    full window hold NaN.  The column is one in which every price is there;
    [RollingNaN.rolling] below is the same on a column with NaN in it. *)
Definition rolling (f : Q -> Q -> Q) (w : nat) (xs : list Q) : list float :=
  map (fun i => if S i <? w then NaN else reduce f (window w i xs))
      (seq 0 (length xs)).

End Rolling.

(** ** Rows of the wave frames

    [max_waves], [min_waves] and [waves] are frames with the columns
    ['waves'] and [0]; a row keeps the index label it had in the frame it
    came from. *)

Record row := mkrow { label : nat; waves_ : float; col0 : Q }.

(** After [dropna] the column ['waves'] holds no NaN. *)
Record wave := mkwave { wlabel : nat; value : Q; polarity : Q }.

Module Frame.

(** [pd.concat([s, pd.Series(np.zeros(len(s)) + p)], axis=1)]: both series
    carry the labels [0 .. len(s)-1]. *)
Definition with_polarity (s : list float) (p : Q) : list row :=
  map (fun iv => mkrow (fst iv) (snd iv) p) (combine (seq 0 (length s)) s).

(** [drop_duplicates('waves')]: a row is kept when no earlier row holds the
    same value. *)
Fixpoint drop_from (seen : list float) (rows : list row) : list row :=
  match rows with
  | [] => []
  | r :: rest =>
      if existsb (float_eqb (waves_ r)) seen
      then drop_from seen rest
      else r :: drop_from (waves_ r :: seen) rest
  end.

Definition drop_duplicates (rows : list row) : list row := drop_from [] rows.

Fixpoint is_monotonic_increasing (ks : list nat) : bool :=
  match ks with
  | a :: (b :: _) as rest => (a <=? b) && is_monotonic_increasing rest
  | _ => true
  end.

(** [Series.shift()]: every value moves one position down, NaN enters. *)
Definition shift (xs : list Q) : list float :=
  match xs with
  | [] => []
  | _ :: _ => NaN :: map Some (removelast xs)
  end.

(** [frame[mask]] with a boolean column of the frame's own index. *)
Definition select (rows : list row) (mask : list bool) : list row :=
  map fst (filter snd (combine rows mask)).

Definition dropna (rows : list row) : list wave :=
  flat_map (fun r => match waves_ r with
                     | Some v => [mkwave (label r) v (col0 r)]
                     | None => []
                     end) rows.

(** The cluster ids that occur, ascending, as [groupby] lists its groups. *)
Definition group_keys (clusters : list nat) : list nat :=
  filter (fun c => existsb (Nat.eqb c) clusters) (seq 0 (S (list_max clusters))).

Definition group (rows : list (wave * nat)) (c : nat) : list wave :=
  map fst (filter (fun rc => snd rc =? c) rows).

(** [Series.idxmax()]: the label of the first row that holds the maximum. *)
Definition idxmax (g : list wave) : option nat :=
  match g with
  | [] => None
  | r :: rest =>
      Some (wlabel (fold_left
                      (fun best q => match (value q ?= value best)%Q with
                                     | Gt => q
                                     | _ => best
                                     end) rest r))
  end.

Definition groupby_idxmax (rows : list (wave * nat)) : list nat :=
  flat_map (fun c => match idxmax (group rows c) with
                     | Some l => [l]
                     | None => []
                     end) (group_keys (map snd rows)).

(** [frame.loc[labels]]: for each requested label, in the order requested,
    every row of the frame that carries it. *)
Definition loc (rows : list (wave * nat)) (labels : list nat) : list (wave * nat) :=
  flat_map (fun l => filter (fun rc => wlabel (fst rc) =? l) rows) labels.

(** [Series.drop_duplicates(keep='first')] on a column of values. *)
Fixpoint unique_from (seen : list Q) (vs : list Q) : list Q :=
  match vs with
  | [] => []
  | v :: rest =>
      if existsb (Qeq_bool v) seen
      then unique_from seen rest
      else v :: unique_from (v :: seen) rest
  end.

Definition unique (vs : list Q) : list Q := unique_from [] vs.

End Frame.

(** ** The caller's frame

    [df] is the frame [yf.download] returned: an index of date labels and
    columns of equal length under names that are all different. *)

Inductive column :=
| Floats (vs : list Q)
| Ints (vs : list nat)
| Objects (vs : list string).

Inductive index_values :=
| RangeIndex (n : nat)
| ObjectIndex (labels : list string).

Record Index := mkIndex { index_name : option string; index_labels : index_values }.

Record DataFrame := mkDataFrame { df_index : Index; df_columns : list (string * column) }.

(** The exception classes that a path of the call can raise.  app.py defines
    no exception class and has no [raise] inside the function: every one of
    them comes out of pandas or scikit-learn. *)
Inductive exn := ValueError | AttributeError | DataError.

Definition class_name (e : exn) : string :=
  match e with
  | ValueError => "ValueError"
  | AttributeError => "AttributeError"
  | DataError => "DataError"
  end.

Module DF.

Definition len_index (ix : Index) : nat :=
  match index_labels ix with
  | RangeIndex n => n
  | ObjectIndex ls => length ls
  end.

Definition len (df : DataFrame) : nat := len_index (df_index df).

Definition len_column (c : column) : nat :=
  match c with
  | Floats vs => length vs
  | Ints vs => length vs
  | Objects vs => length vs
  end.

Definition get (df : DataFrame) (c : string) : option column :=
  option_map snd (find (fun kv => String.eqb (fst kv) c) (df_columns df)).

Definition has_column (df : DataFrame) (c : string) : bool :=
  existsb (fun kv => String.eqb (fst kv) c) (df_columns df).

(** Every column is as long as the index. *)
Definition well_formed (df : DataFrame) : Prop :=
  Forall (fun kv => len_column (snd kv) = len df) (df_columns df).

(** The old index as the column [reset_index] inserts. *)
Definition index_column (ix : Index) : column :=
  match index_labels ix with
  | RangeIndex n => Ints (seq 0 n)
  | ObjectIndex ls => Objects ls
  end.

(** The name of that column: the name of the index, or ['index'], or
    ['level_0'] when a column ['index'] exists already. *)
Definition reset_name (df : DataFrame) : string :=
  match index_name (df_index df) with
  | Some s => s
  | None => if has_column df "index" then "level_0" else "index"
  end.

(** [df.reset_index()]: the index becomes the first column and the rows are
    numbered anew; a column of that name in the way is a [ValueError]. *)
Definition reset_index (df : DataFrame) : exn + DataFrame :=
  if has_column df (reset_name df) then inl ValueError
  else inr (mkDataFrame (mkIndex None (RangeIndex (len df)))
                        ((reset_name df, index_column (df_index df)) :: df_columns df)).

(** What [rolling] accepts: a numeric column, read as floats.  An integer
    is taken as the float of the same value, which is what the cast gives
    for every integer a float holds exactly (up to 2^53). *)
Definition to_float (c : column) : exn + list Q :=
  match c with
  | Floats vs => inr vs
  | Ints vs => inr (map (fun n => inject_Z (Z.of_nat n)) vs)
  | Objects _ => inl DataError
  end.

(** The prices a column of the frame holds, when it is there and numeric. *)
Definition prices (df : DataFrame) (c : string) : option (list Q) :=
  match get df c with
  | Some col => match to_float col with
                | inr vs => Some vs
                | inl _ => None
                end
  | None => None
  end.

End DF.

(** ** Calls on a shared frame

    The function works on the caller's frame and can raise: a computation
    takes the frame and gives the frame back with an exception or a value. *)

Definition M (A : Type) : Type := DataFrame -> DataFrame * (exn + A).

Definition ret {A} (a : A) : M A := fun df => (df, inr a).

Definition raise {A} (e : exn) : M A := fun df => (df, inl e).

Definition bind {A B} (m : M A) (k : A -> M B) : M B :=
  fun df => match m df with
            | (df', inl e) => (df', inl e)
            | (df', inr a) => k a df'
            end.

Notation "x <- m ;; k" := (bind m (fun x => k))
  (at level 61, m at next level, right associativity).

Definition lift {A} (r : exn + A) : M A :=
  match r with
  | inl e => raise e
  | inr a => ret a
  end.

(** [df.index] *)
Definition get_index : M Index := fun df => (df, inr (df_index df)).

(** [df.index = ix]; the function only ever puts back an index of the
    frame's own length. *)
Definition set_index (ix : Index) : M unit :=
  fun df => (mkDataFrame ix (df_columns df), inr tt).

(** [df.reset_index(inplace=True)] *)
Definition reset_index_inplace : M unit :=
  fun df => match DF.reset_index df with
            | inl e => (df, inl e)
            | inr df' => (df', inr tt)
            end.

(** [df.High], [df.Low]: attribute access to a column, as floats. *)
Definition numeric_column (c : string) : M (list Q) :=
  fun df => match DF.get df c with
            | None => raise AttributeError df
            | Some col => lift (DF.to_float col) df
            end.

(** ** numpy and scikit-learn

    Neither library is code of the repository; both are taken by what they
    promise.  [sort_index] orders the labels with
    [numpy.argsort(kind='quicksort')], which gives a sorting permutation and
    promises no order among equal labels.
    [AgglomerativeClustering(n_clusters=k, linkage='ward').fit_predict(x)]
    raises a [ValueError] on fewer than two samples (its input check asks
    for two), on [k < 1] and on more clusters than samples; otherwise it
    cuts the tree into [k] clusters, so every sample gets a label below [k]
    and every label is used. *)

Class Externals := {
  argsort : list nat -> list nat;
  fit_predict : nat -> list (Q * Q) -> option (list nat)
}.

Class Contract (E : Externals) : Prop := {
  argsort_perm : forall ks, Permutation (argsort ks) (seq 0 (length ks));
  argsort_sorted :
    forall ks, LocallySorted le (map (fun p => nth p ks 0) (argsort ks));
  fit_predict_raises :
    forall k x, length x < 2 \/ k < 1 \/ length x < k -> fit_predict k x = None;
  fit_predict_labels :
    forall k x, 2 <= length x -> 1 <= k <= length x ->
      exists labels_, fit_predict k x = Some labels_
                      /\ length labels_ = length x
                      /\ (forall c, In c labels_ -> c < k)
                      /\ (forall c, c < k -> In c labels_)
}.

(** ** The pipeline of [calculate_support_resistance] *)

Section Core.

Context {E : Externals}.

(** [frame.sort_index()]: an index that is increasing already is left as it
    is, otherwise the rows are taken in the order [argsort] gives. *)
Definition sort_index (rows : list row) : list row :=
  if Frame.is_monotonic_increasing (map label rows) then rows
  else flat_map (fun p => match nth_error rows p with
                          | Some r => [r]
                          | None => []
                          end) (argsort (map label rows)).

(** Lines 84-85. *)
Definition max_waves_temp (high : list Q) (w : nat) : list float :=
  Rolling.rolling qmax w high.

Definition min_waves_temp (low : list Q) (w : nat) : list float :=
  Rolling.rolling qmin w low.

(** Lines 87-90. *)
Definition max_waves (high : list Q) (w : nat) : list row :=
  Frame.drop_duplicates (Frame.with_polarity (max_waves_temp high w) 1%Q).

Definition min_waves (low : list Q) (w : nat) : list row :=
  Frame.drop_duplicates (Frame.with_polarity (min_waves_temp low w) (-1 # 1)%Q).

(** Line 92. *)
Definition merged (high low : list Q) (w : nat) : list row :=
  sort_index (max_waves high w ++ min_waves low w).

(** Line 93: [waves[0] != waves[0].shift()], then [dropna]. *)
Definition polarity_changes (rows : list row) : list bool :=
  map (fun ab => float_neb (Some (fst ab)) (snd ab))
      (combine (map col0 rows) (Frame.shift (map col0 rows))).

Definition waves (high low : list Q) (w : nat) : list wave :=
  let m := merged high low w in
  Frame.dropna (Frame.select m (polarity_changes m)).

(** Lines 95-96: each value beside the constant 1. *)
Definition x (ws : list wave) : list (Q * Q) :=
  map (fun r => (value r, 1%Q)) ws.

(** Lines 100-101: the labels become the column ['clusters'], and [waves2]
    is what [loc] finds under the label of each cluster's maximum. *)
Definition waves2 (ws : list wave) (labels_ : list nat) : list (wave * nat) :=
  let clustered := combine ws labels_ in
  Frame.loc clustered (Frame.groupby_idxmax clustered).

Definition column_waves (rows : list (wave * nat)) : list Q :=
  map (fun rc => value (fst rc)) rows.

(** Line 99, and the length check of the column assignment of line 100. *)
Definition cluster (ws : list wave) (k : nat) : M (list nat) :=
  match fit_predict k (x ws) with
  | None => raise ValueError
  | Some labels_ =>
      if length labels_ =? length ws then ret labels_ else raise ValueError
  end.

(** Lines 81-105.  Line 103 shortens the Series object that the attribute
    access [waves2.waves] hands out; the frame [waves2], from which line 105
    reads the column again, keeps all its rows. *)
Definition body (rolling_wave_length num_clusters : nat) : M (list Q) :=
  date <- get_index ;;                                    (* 81 *)
  _ <- reset_index_inplace ;;                             (* 82 *)
  high <- numeric_column "High" ;;                        (* 84 *)
  low <- numeric_column "Low" ;;                          (* 85 *)
  let ws := waves high low rolling_wave_length in         (* 84-93 *)
  labels_ <- cluster ws num_clusters ;;                   (* 95-100 *)
  let waves2 := waves2 ws labels_ in                      (* 101 *)
  _ <- set_index date ;;                                  (* 102 *)
  let dropped := Frame.unique (column_waves waves2) in    (* 103 *)
  ret (column_waves waves2).                              (* 105 *)

Definition calculate_support_resistance
    (df : DataFrame) (rolling_wave_length num_clusters : nat)
  : DataFrame * (exn + list Q) :=
  body rolling_wave_length num_clusters df.

End Core.

(** ** A reference instance of the externals

    A stable insertion argsort, and a clusterer that meets the contract by
    cutting the samples into the first [k-1] singletons and the rest.  The
    theorems below hold for every instance that keeps the contract; this one
    runs the examples, all of them on inputs where the contract leaves the
    externals no choice (an index that is increasing already, one
    cluster). *)

Module Reference.

Definition key (ks : list nat) (p : nat) : nat := nth p ks 0.

Fixpoint insert (ks : list nat) (p : nat) (ps : list nat) : list nat :=
  match ps with
  | [] => [p]
  | q :: rest =>
      if key ks p <=? key ks q then p :: ps else q :: insert ks p rest
  end.

Definition argsort (ks : list nat) : list nat :=
  fold_right (insert ks) [] (seq 0 (length ks)).

Definition fit_predict (k : nat) (x : list (Q * Q)) : option (list nat) :=
  if (length x <? 2) || (k <? 1) || (length x <? k) then None
  else Some (map (fun i => Nat.min i (k - 1)) (seq 0 (length x))).

End Reference.

Definition reference_externals : Externals := {|
  argsort := Reference.argsort;
  fit_predict := Reference.fit_predict
|}.

(** ** Frames and predicates of the statements *)

(** The frame of lines 57-59: date labels under the index name ['Date'] and
    the five price columns. *)
Definition ohlcv (dates : list string) (open high low close volume : list Q)
  : DataFrame :=
  mkDataFrame (mkIndex (Some "Date"%string) (ObjectIndex dates))
              [("Open"%string, Floats open); ("High"%string, Floats high);
               ("Low"%string, Floats low); ("Close"%string, Floats close);
               ("Volume"%string, Floats volume)].

(** One bar: open 11, high 12, low 10, close 11. *)
Definition one_bar : DataFrame :=
  ohlcv ["03-01-2022"%string] [11%Q] [12%Q] [10%Q] [11%Q] [5%Q].

(** One flat bar: every price is 100. *)
Definition flat_bar : DataFrame :=
  ohlcv ["03-01-2022"%string] [100%Q] [100%Q] [100%Q] [100%Q] [5%Q].

(** A frame with the prices of [one_bar] in [High] and [Low] and everything
    else changed: another date, an unnamed index, other columns. *)
Definition other_bar : DataFrame :=
  mkDataFrame (mkIndex None (ObjectIndex ["17-06-2021"%string]))
              [("Low"%string, Floats [10%Q]); ("Close"%string, Floats [10%Q]);
               ("High"%string, Floats [12%Q]); ("Volume"%string, Ints [7])].

(** [n] bars that all hold the price 100. *)
Definition flat (n : nat) : list Q := repeat 100%Q n.

(** The frame after a call that got past [reset_index]: the old index is
    back, and its copy stays behind as the first column. *)
Definition after_call (df : DataFrame) : DataFrame :=
  mkDataFrame (df_index df)
              ((DF.reset_name df, DF.index_column (df_index df)) :: df_columns df).

(** An exception of the class called [kind] comes out. *)
Definition raises_kind (out : exn + list Q) (kind : string) : Prop :=
  exists e, out = inl e /\ class_name e = kind.

(** A series with NaN is non-decreasing when its values are, wherever two of
    them are defined. *)
Definition non_decreasing (s : list float) : Prop :=
  forall i j a b,
    i <= j -> nth_error s i = Some (Some a) -> nth_error s j = Some (Some b) ->
    (a <= b)%Q.

Definition monotone (f : Q -> Q -> Q) : Prop :=
  forall a a' b b', (a <= a')%Q -> (b <= b')%Q -> (f a b <= f a' b')%Q.

(** Two bars that close higher while the range falls: open 10, high 20,
    low 5, close 10, then open 11, high 12, low 1, close 11. *)
Definition rising_close : DataFrame :=
  ohlcv ["03-01-2022"%string; "04-01-2022"%string]
        [10%Q; 11%Q] [20%Q; 12%Q] [5%Q; 1%Q] [10%Q; 11%Q] [5%Q; 5%Q].

(** The rows of a frame under one index label. *)
Definition rows_at (l : nat) (rows : list row) : list row :=
  filter (fun r => label r =? l) rows.

Definition waves_at (l : nat) (ws : list wave) : list wave :=
  filter (fun p => wlabel p =? l) ws.

(** Two rows hold the same value (NaN included). *)
Definition same_value (a b : row) : Prop :=
  float_eqb (waves_ a) (waves_ b) = true.

(** The deduplication that section 4.1 of the specification words: a row
    goes when it holds the value of the row just before it.  This follows
    the specification, not app.py; it is here to be set against
    [Frame.drop_duplicates]. *)
Fixpoint drop_consecutive_from (prev : option float) (rows : list row)
  : list row :=
  match rows with
  | [] => []
  | r :: rest =>
      match prev with
      | Some v =>
          if float_eqb (waves_ r) v
          then drop_consecutive_from (Some (waves_ r)) rest
          else r :: drop_consecutive_from (Some (waves_ r)) rest
      | None => r :: drop_consecutive_from (Some (waves_ r)) rest
      end
  end.

Definition drop_consecutive (rows : list row) : list row :=
  drop_consecutive_from None rows.

(** ** The script around the function

    The statements of app.py outside [calculate_support_resistance] that
    compute: the check of the date range (lines 44-55) and the colours of
    the volume bars (lines 129-138). *)

(** Lines 40-42: the intervals the select box offers. *)
Inductive interval := I1d | I5d | I1wk | I1mo | I3mo.

(** Line 44: the days in one step of each interval. *)
Definition timedelta (i : interval) : Z :=
  match i with
  | I1d => 1
  | I5d => 5
  | I1wk => 7
  | I1mo => 30
  | I3mo => 90
  end%Z.

(** A [datetime.date] is taken by its ordinal: day 1 is 0001-01-01 and
    [date_max] is 9999-12-31, past which [date + timedelta] raises. *)
Definition date_max : Z := 3652059%Z.

Inductive range_check := Passed | RaisedValueError | RaisedOverflowError.

(** Lines 54-55: [if end < start + datetime.timedelta(timedelta[interval]):
    raise ValueError(...)]. *)
Definition check_range (start end_ : Z) (i : interval) : range_check :=
  if (date_max <? start + timedelta i)%Z then RaisedOverflowError
  else if (end_ <? start + timedelta i)%Z then RaisedValueError
  else Passed.

Inductive color := lightgreen | lightcoral.

(** [a > b] on two floats. *)
Definition qgtb (a b : Q) : bool :=
  match (a ?= b)%Q with
  | Gt => true
  | _ => false
  end.

(** Lines 129-138: one pass over [range(len(df.Close))] that appends a
    colour for every bar; [close] is the column [df.Close], read by
    position. *)
Definition colors (close : list Q) : list color :=
  fold_left
    (fun colors i =>
       if negb (i =? 0)
       then if qgtb (nth i close 0%Q) (nth (i - 1) close 0%Q)
            then colors ++ [lightgreen]
            else colors ++ [lightcoral]
       else colors ++ [lightcoral])
    (seq 0 (length close)) [].

(** ** More predicates of the statements *)

(** No two neighbours of a wave series have the same polarity. *)
Fixpoint alternating (ws : list wave) : bool :=
  match ws with
  | a :: (b :: _) as rest =>
      negb (Qeq_bool (polarity a) (polarity b)) && alternating rest
  | _ => true
  end.

(** The same for the rows of a frame, by the column [0]. *)
Fixpoint alternating_rows (rows : list row) : bool :=
  match rows with
  | a :: (b :: _) as rest =>
      negb (Qeq_bool (col0 a) (col0 b)) && alternating_rows rest
  | _ => true
  end.

(** The rows that line 93 keeps, told row by row: a row stays when its
    polarity differs from that of the row before it in the frame ([prev],
    NaN for the first row).  [keep_changes_select] shows that this is what
    the mask of [polarity_changes] selects. *)
Fixpoint keep_changes (prev : float) (rows : list row) : list row :=
  match rows with
  | [] => []
  | r :: rest =>
      if float_neb (Some (col0 r)) prev
      then r :: keep_changes (Some (col0 r)) rest
      else keep_changes (Some (col0 r)) rest
  end.

(** The wave points of one value and one polarity. *)
Definition waves_of_value (v pol : Q) (ws : list wave) : list wave :=
  filter (fun p => Qeq_bool (value p) v && Qeq_bool (polarity p) pol) ws.

(** ** Columns with missing prices

    [Rolling.rolling] takes a column in which every price is there.  A price
    column can also hold NaN (a bar the provider has no price for), and
    [rolling(w).max()] then gives NaN for every window with a NaN in it:
    [min_periods] is the window length, so all [w] entries have to be
    there.  [RollingNaN] is lines 84-85 on such columns and [waves_of_floats]
    lines 84-93; on columns without NaN they are [Rolling.rolling] and
    [waves] ([rolling_of_finite], [waves_of_finite]). *)

Module RollingNaN.

Definition window (w i : nat) (xs : list float) : list float :=
  firstn w (skipn (S i - w) xs).

(** One step of the reduction: NaN as soon as a value is missing. *)
Definition step (f : Q -> Q -> Q) (a b : float) : float :=
  match a, b with
  | Some x, Some y => Some (f x y)
  | _, _ => NaN
  end.

Definition reduce (f : Q -> Q -> Q) (xs : list float) : float :=
  match xs with
  | [] => NaN
  | x :: rest => fold_left (step f) rest x
  end.

Definition rolling (f : Q -> Q -> Q) (w : nat) (xs : list float) : list float :=
  map (fun i => if S i <? w then NaN else reduce f (window w i xs))
      (seq 0 (length xs)).

End RollingNaN.

(** Lines 87-93 on the two rolling series, whatever they hold. *)
Definition waves_from {E : Externals} (smax smin : list float) : list wave :=
  let m := sort_index (Frame.drop_duplicates (Frame.with_polarity smax 1%Q)
                       ++ Frame.drop_duplicates
                            (Frame.with_polarity smin (-1 # 1)%Q)) in
  Frame.dropna (Frame.select m (polarity_changes m)).

(** Lines 84-93 on columns that can hold NaN. *)
Definition waves_of_floats {E : Externals} (high low : list float) (w : nat)
  : list wave :=
  waves_from (RollingNaN.rolling qmax w high) (RollingNaN.rolling qmin w low).

(** No price of the column is missing. *)
Definition finite (xs : list float) : Prop := Forall (fun v => v <> NaN) xs.

(** The frame [one_bar] with its index named after one of its columns. *)
Definition one_bar_index_named_Open : DataFrame :=
  mkDataFrame (mkIndex (Some "Open"%string) (ObjectIndex ["03-01-2022"%string]))
              (df_columns one_bar).

(** ** The reference instance keeps the contract *)

Section ReferenceFacts.

Import Reference.

Lemma reference_insert_perm ks p ps : Permutation (insert ks p ps) (p :: ps).
Proof.
  induction ps as [|q rest IH]; simpl; [reflexivity|].
  destruct (key ks p <=? key ks q); [reflexivity|].
  rewrite IH. apply perm_swap.
Qed.

Lemma reference_argsort_perm ks : Permutation (argsort ks) (seq 0 (length ks)).
Proof.
  unfold argsort. induction (seq 0 (length ks)) as [|p ps IH]; simpl.
  - reflexivity.
  - rewrite reference_insert_perm. now constructor.
Qed.

Lemma reference_insert_sorted ks p ps :
  Sorted le (map (key ks) ps) -> Sorted le (map (key ks) (insert ks p ps)).
Proof.
  induction ps as [|q rest IH]; simpl; intros Hs.
  - repeat constructor.
  - destruct (key ks p <=? key ks q) eqn:Hpq.
    + simpl. constructor; [assumption|].
      constructor. now apply Nat.leb_le.
    + apply Nat.leb_gt in Hpq. inversion Hs as [|? ? Hrest Hhd]; subst.
      simpl. constructor; [now apply IH|].
      destruct rest as [|q' rest']; simpl.
      * constructor. lia.
      * inversion Hhd; subst.
        destruct (key ks p <=? key ks q'); simpl; constructor; lia.
Qed.

Lemma reference_argsort_sorted ks :
  LocallySorted le (map (fun p => nth p ks 0) (argsort ks)).
Proof.
  apply Sorted_LocallySorted_iff. change (fun p => nth p ks 0) with (key ks).
  unfold argsort. induction (seq 0 (length ks)) as [|p ps IH]; simpl.
  - constructor.
  - now apply reference_insert_sorted.
Qed.

Lemma reference_fit_predict_raises k x :
  length x < 2 \/ k < 1 \/ length x < k -> fit_predict k x = None.
Proof.
  intros H. unfold fit_predict.
  destruct (length x <? 2) eqn:H2; [reflexivity|].
  destruct (k <? 1) eqn:H1; [reflexivity|].
  destruct (length x <? k) eqn:Hk; [reflexivity|].
  apply Nat.ltb_ge in H2, H1, Hk. lia.
Qed.

Lemma reference_fit_predict_labels k x :
  2 <= length x -> 1 <= k <= length x ->
  exists labels_, fit_predict k x = Some labels_
                  /\ length labels_ = length x
                  /\ (forall c, In c labels_ -> c < k)
                  /\ (forall c, c < k -> In c labels_).
Proof.
  intros H2 [H1 Hk]. unfold fit_predict.
  replace (length x <? 2) with false by (symmetry; apply Nat.ltb_ge; lia).
  replace (k <? 1) with false by (symmetry; apply Nat.ltb_ge; lia).
  replace (length x <? k) with false by (symmetry; apply Nat.ltb_ge; lia).
  simpl. eexists. split; [reflexivity|]. split; [|split].
  - now rewrite length_map, length_seq.
  - intros c Hc. apply in_map_iff in Hc as (i & <- & _). lia.
  - intros c Hc. apply in_map_iff. exists c. split; [lia|].
    apply in_seq. lia.
Qed.

(** The contract can be kept. *)
Lemma reference_contract : Contract reference_externals.
Proof.
  constructor.
  - exact reference_argsort_perm.
  - exact reference_argsort_sorted.
  - exact reference_fit_predict_raises.
  - exact reference_fit_predict_labels.
Qed.

End ReferenceFacts.

(** ** Where the values of the wave frames come from *)

Create HintDb rows.

Section Provenance.

Context {E : Externals}.

Lemma qmax_cases a b : qmax a b = a \/ qmax a b = b.
Proof. unfold qmax. destruct (a ?= b)%Q; auto. Qed.

Lemma qmin_cases a b : qmin a b = a \/ qmin a b = b.
Proof. unfold qmin. destruct (a ?= b)%Q; auto. Qed.

(** A fold that only ever picks one of its two arguments picks an element. *)
Lemma fold_left_picks {A} (f : A -> A -> A) :
  (forall a b, f a b = a \/ f a b = b) ->
  forall rest x0, In (fold_left f rest x0) (x0 :: rest).
Proof.
  intros Hf. induction rest as [|y rest IH]; intros x0; simpl.
  - now left.
  - specialize (IH (f x0 y)). destruct IH as [IH|IH].
    + rewrite <- IH. destruct (Hf x0 y) as [H|H]; rewrite H; auto.
    + auto.
Qed.

Lemma reduce_in f xs v :
  (forall a b, f a b = a \/ f a b = b) ->
  Rolling.reduce f xs = Some v -> In v xs.
Proof.
  intros Hf. destruct xs as [|x0 rest]; simpl; [discriminate|].
  intros [= <-]. now apply fold_left_picks.
Qed.

Lemma in_firstn {A} n (l : list A) a : In a (firstn n l) -> In a l.
Proof.
  intros H. rewrite <- (firstn_skipn n l). apply in_or_app. now left.
Qed.

Lemma in_skipn {A} n (l : list A) a : In a (skipn n l) -> In a l.
Proof.
  intros H. rewrite <- (firstn_skipn n l). apply in_or_app. now right.
Qed.

Lemma window_incl w i xs v : In v (Rolling.window w i xs) -> In v xs.
Proof.
  unfold Rolling.window. intros H. now apply in_firstn, in_skipn in H.
Qed.

Lemma rolling_in f w xs v :
  (forall a b, f a b = a \/ f a b = b) ->
  In (Some v) (Rolling.rolling f w xs) -> In v xs.
Proof.
  intros Hf H. unfold Rolling.rolling in H.
  apply in_map_iff in H as (i & Hi & _).
  destruct (S i <? w); [discriminate|].
  eapply window_incl, reduce_in; eauto.
Qed.

Lemma with_polarity_in s p r :
  In r (Frame.with_polarity s p) -> In (waves_ r) s /\ col0 r = p.
Proof.
  unfold Frame.with_polarity. intros H.
  apply in_map_iff in H as ([i v] & <- & Hin). simpl.
  split; [|reflexivity]. eapply in_combine_r; eauto.
Qed.

Lemma drop_from_incl seen rows r :
  In r (Frame.drop_from seen rows) -> In r rows.
Proof.
  revert seen. induction rows as [|r0 rest IH]; intros seen; simpl; [tauto|].
  destruct (existsb _ seen).
  - intros H. right. eapply IH; eauto.
  - intros [H|H]; [now left|]. right. eapply IH; eauto.
Qed.

Lemma drop_duplicates_incl rows r :
  In r (Frame.drop_duplicates rows) -> In r rows.
Proof. apply drop_from_incl. Qed.

Lemma sort_index_incl rows r : In r (sort_index rows) -> In r rows.
Proof.
  unfold sort_index.
  destruct (Frame.is_monotonic_increasing _); [tauto|].
  intros H. apply in_flat_map in H as (p & _ & Hp).
  destruct (nth_error rows p) as [r'|] eqn:Hnth; [|contradiction].
  destruct Hp as [<-|[]]. eapply nth_error_In; eauto.
Qed.

Lemma select_incl rows mask r : In r (Frame.select rows mask) -> In r rows.
Proof.
  unfold Frame.select. intros H.
  apply in_map_iff in H as ([r' b] & <- & Hin).
  apply filter_In in Hin as [Hin _]. eapply in_combine_l; eauto.
Qed.

Lemma dropna_in rows p :
  In p (Frame.dropna rows) ->
  exists r, In r rows /\ waves_ r = Some (value p)
            /\ label r = wlabel p /\ col0 r = polarity p.
Proof.
  unfold Frame.dropna. intros H.
  apply in_flat_map in H as (r & Hr & Hp).
  destruct (waves_ r) as [v|] eqn:Hv; [|contradiction].
  destruct Hp as [<-|[]]. exists r. simpl. auto.
Qed.

#[local] Hint Resolve drop_duplicates_incl sort_index_incl select_incl : rows.

(** Every wave point is a row of [max_waves] or of [min_waves]. *)
Lemma waves_origin high low w p :
  In p (waves high low w) ->
  exists r, In r (max_waves high w ++ min_waves low w)
            /\ waves_ r = Some (value p)
            /\ label r = wlabel p /\ col0 r = polarity p.
Proof.
  unfold waves, merged. intros H.
  apply dropna_in in H as (r & Hr & Hv).
  exists r. split; [|assumption].
  eauto with rows.
Qed.

Lemma max_waves_in high w r :
  In r (max_waves high w) ->
  In (waves_ r) (max_waves_temp high w) /\ col0 r = 1%Q.
Proof.
  unfold max_waves. intros H.
  now apply drop_duplicates_incl, with_polarity_in in H.
Qed.

Lemma min_waves_in low w r :
  In r (min_waves low w) ->
  In (waves_ r) (min_waves_temp low w) /\ col0 r = (-1 # 1)%Q.
Proof.
  unfold min_waves. intros H.
  now apply drop_duplicates_incl, with_polarity_in in H.
Qed.

(** A wave point holds a high of the input when it is a peak and a low when
    it is a trough. *)
Lemma waves_value high low w p :
  In p (waves high low w) ->
  (polarity p = 1%Q /\ In (Some (value p)) (max_waves_temp high w)
   /\ In (value p) high)
  \/ (polarity p = (-1 # 1)%Q /\ In (Some (value p)) (min_waves_temp low w)
      /\ In (value p) low).
Proof.
  intros H. apply waves_origin in H as (r & Hr & Hv & _ & Hc).
  apply in_app_or in Hr as [Hr|Hr].
  - left. apply max_waves_in in Hr as [Hin Hp].
    rewrite Hv in Hin. rewrite <- Hc. repeat split; auto.
    eapply rolling_in; [apply qmax_cases|exact Hin].
  - right. apply min_waves_in in Hr as [Hin Hp].
    rewrite Hv in Hin. rewrite <- Hc. repeat split; auto.
    eapply rolling_in; [apply qmin_cases|exact Hin].
Qed.

Lemma loc_incl rows labels rc : In rc (Frame.loc rows labels) -> In rc rows.
Proof.
  unfold Frame.loc. intros H.
  apply in_flat_map in H as (l & _ & H). now apply filter_In in H.
Qed.

(** Every value of [waves2] is the value of a wave point. *)
Lemma waves2_values ws labels_ v :
  In v (column_waves (waves2 ws labels_)) -> exists p, In p ws /\ value p = v.
Proof.
  unfold column_waves, waves2. intros H.
  apply in_map_iff in H as ([p c] & Hv & Hin). simpl in Hv.
  apply loc_incl in Hin. exists p. split; [|assumption].
  eapply in_combine_l; eauto.
Qed.

End Provenance.

(** ** Running the function *)


Section Runs.

Context {E : Externals} {C : Contract E}.

Lemma get_has_column df c col :
  DF.get df c = Some col -> DF.has_column df c = true.
Proof.
  unfold DF.get, DF.has_column.
  induction (df_columns df) as [|[n v] cols IH]; simpl; [discriminate|].
  destruct (String.eqb n c); simpl; auto.
Qed.

Lemma get_after_reset df df1 c col :
  DF.reset_index df = inr df1 ->
  DF.get df c = Some col -> DF.get df1 c = Some col.
Proof.
  unfold DF.reset_index. intros Hr Hget.
  destruct (DF.has_column df (DF.reset_name df)) eqn:Hhas; [discriminate|].
  injection Hr as <-. unfold DF.get at 1. simpl.
  destruct (String.eqb (DF.reset_name df) c) eqn:Heq; [|exact Hget].
  apply String.eqb_eq in Heq. subst c.
  apply get_has_column in Hget. congruence.
Qed.

Lemma prices_after_reset df df1 c vs :
  DF.reset_index df = inr df1 ->
  DF.prices df c = Some vs -> DF.prices df1 c = Some vs.
Proof.
  unfold DF.prices. intros Hr Hp.
  destruct (DF.get df c) as [col|] eqn:Hget; [|discriminate].
  now rewrite (get_after_reset _ _ _ _ Hr Hget).
Qed.

Lemma numeric_column_prices df c vs :
  DF.prices df c = Some vs -> numeric_column c df = (df, inr vs).
Proof.
  unfold DF.prices, numeric_column.
  destruct (DF.get df c) as [col|]; [|discriminate].
  destruct (DF.to_float col); [discriminate|]. now intros [= ->].
Qed.


(** A call on a frame with numeric [High] and [Low], once [reset_index] has
    gone through. *)
Lemma run_past_reset df df1 w k high low :
  DF.reset_index df = inr df1 ->
  DF.prices df "High" = Some high -> DF.prices df "Low" = Some low ->
  calculate_support_resistance df w k =
  match fit_predict k (x (waves high low w)) with
  | None => (df1, inl ValueError)
  | Some labels_ =>
      if length labels_ =? length (waves high low w)
      then (after_call df,
            inr (column_waves (waves2 (waves high low w) labels_)))
      else (df1, inl ValueError)
  end.
Proof.
  intros Hr Hh Hl.
  pose proof (prices_after_reset _ _ _ _ Hr Hh) as Hh1.
  pose proof (prices_after_reset _ _ _ _ Hr Hl) as Hl1.
  unfold calculate_support_resistance, body, bind, get_index,
    reset_index_inplace.
  rewrite Hr, (numeric_column_prices _ _ _ Hh1), (numeric_column_prices _ _ _ Hl1).
  unfold cluster. destruct (fit_predict k (x (waves high low w))) as [ls|];
    [|reflexivity].
  destruct (length ls =? length (waves high low w)); [|reflexivity].
  unfold set_index, ret, after_call. simpl.
  unfold DF.reset_index in Hr.
  destruct (DF.has_column df (DF.reset_name df)); [discriminate|].
  now injection Hr as <-.
Qed.

Lemma run_reset_raises df e w k :
  DF.reset_index df = inl e ->
  calculate_support_resistance df w k = (df, inl e).
Proof.
  intros Hr.
  unfold calculate_support_resistance, body, bind, get_index,
    reset_index_inplace.
  now rewrite Hr.
Qed.

(** What a call that returns has gone through. *)
Lemma run_returns df w k df' levels high low :
  DF.prices df "High" = Some high -> DF.prices df "Low" = Some low ->
  calculate_support_resistance df w k = (df', inr levels) ->
  exists labels_,
    fit_predict k (x (waves high low w)) = Some labels_
    /\ length labels_ = length (waves high low w)
    /\ levels = column_waves (waves2 (waves high low w) labels_)
    /\ df' = after_call df.
Proof.
  intros Hh Hl Hrun.
  destruct (DF.reset_index df) as [e|df1] eqn:Hr.
  - rewrite (run_reset_raises _ _ _ _ Hr) in Hrun. discriminate.
  - rewrite (run_past_reset _ _ _ _ _ _ Hr Hh Hl) in Hrun.
    destruct (fit_predict k (x (waves high low w))) as [ls|]; [|discriminate].
    destruct (length ls =? length (waves high low w)) eqn:Hlen; [|discriminate].
    injection Hrun as <- <-. exists ls. apply Nat.eqb_eq in Hlen. auto.
Qed.

Lemma length_x ws : length (x ws) = length ws.
Proof. apply length_map. Qed.

(** With one cluster every label is 0. *)
Lemma one_cluster_labels xs :
  2 <= length xs -> fit_predict 1 xs = Some (repeat 0 (length xs)).
Proof.
  intros H2.
  destruct (fit_predict_labels 1 xs H2 ltac:(lia)) as (ls & -> & Hlen & Hlt & _).
  f_equal. rewrite <- Hlen. clear Hlen.
  induction ls as [|c ls IH]; simpl; [reflexivity|].
  rewrite <- IH by (intros; apply Hlt; now right).
  specialize (Hlt c (or_introl eq_refl)). f_equal. lia.
Qed.

(** With two samples in two clusters each sample has a label of its own. *)
Lemma two_cluster_labels a b :
  fit_predict 2 [a; b] = Some [0; 1] \/ fit_predict 2 [a; b] = Some [1; 0].
Proof.
  destruct (fit_predict_labels 2 [a; b]) as (ls & -> & Hlen & Hlt & Hall);
    [simpl; lia..|].
  destruct ls as [|c [|d [|? ?]]]; try discriminate.
  pose proof (Hlt c (or_introl eq_refl)) as Hc.
  pose proof (Hlt d (or_intror (or_introl eq_refl))) as Hd.
  pose proof (Hall 0 ltac:(lia)) as Hzero.
  pose proof (Hall 1 ltac:(lia)) as Hone.
  simpl in Hzero, Hone.
  assert (c = 0 /\ d = 1 \/ c = 1 /\ d = 0) as [[-> ->]|[-> ->]] by lia; auto.
Qed.

End Runs.

(** ** Properties of the returned levels *)

Section Levels.

Context {E : Externals} {C : Contract E}.

Lemma reset_one_bar_shape dates o h l c v :
  DF.reset_index (ohlcv dates o h l c v)
  = inr (mkDataFrame (mkIndex None (RangeIndex (length dates)))
           (("Date"%string, Objects dates) :: df_columns (ohlcv dates o h l c v))).
Proof. reflexivity. Qed.

(** One bar and a window of one bar: the peak and the trough of the bar,
    both under the index label 0.  The merged index 0, 0 is increasing, so
    [sort_index] leaves the rows where they are. *)
Lemma waves_single_bar h l :
  waves [h] [l] 1 = [mkwave 0 h 1%Q; mkwave 0 l (-1 # 1)%Q].
Proof. reflexivity. Qed.

(** Takes a call on a one-bar frame up to the clustering step. *)
Ltac run_single_bar :=
  erewrite run_past_reset by reflexivity; rewrite waves_single_bar.

(** C3 (value membership).  Every level that a call returns is a value of
    the [High] column or of the [Low] column of the frame it was given: some
    [high[i]] or some [low[i]]. *)
Theorem levels_are_observed_prices df w k df' levels high low :
  DF.prices df "High" = Some high ->
  DF.prices df "Low" = Some low ->
  calculate_support_resistance df w k = (df', inr levels) ->
  forall v, In v levels ->
    exists i, nth_error high i = Some v \/ nth_error low i = Some v.
Proof.
  intros Hh Hl Hrun v Hv.
  destruct (run_returns _ _ _ _ _ _ _ Hh Hl Hrun) as (ls & _ & _ & -> & _).
  apply waves2_values in Hv as (p & Hp & <-).
  apply waves_value in Hp as [(_ & _ & Hin)|(_ & _ & Hin)];
    apply In_nth_error in Hin as [i Hi]; exists i; auto.
Qed.

(** C10 (noninterference), as the code has it.  Two frames that hold the
    same [High] and [Low] prices get the same levels from calls that return;
    and once [reset_index] has gone through on both, the two calls end the
    same way, with the same levels or the same exception.  The values of the
    other columns and the index labels are not read; the name of the index
    and the names of the columns decide whether [reset_index] raises. *)
Theorem levels_depend_on_high_and_low_only df1 df2 w k high low :
  DF.prices df1 "High" = Some high -> DF.prices df2 "High" = Some high ->
  DF.prices df1 "Low" = Some low -> DF.prices df2 "Low" = Some low ->
  (forall d1 d2 l1 l2,
      calculate_support_resistance df1 w k = (d1, inr l1) ->
      calculate_support_resistance df2 w k = (d2, inr l2) ->
      l1 = l2)
  /\ (forall r1 r2,
         DF.reset_index df1 = inr r1 -> DF.reset_index df2 = inr r2 ->
         snd (calculate_support_resistance df1 w k)
         = snd (calculate_support_resistance df2 w k)).
Proof.
  intros Hh1 Hh2 Hl1 Hl2. split.
  - intros d1 d2 l1 l2 Hrun1 Hrun2.
    destruct (run_returns _ _ _ _ _ _ _ Hh1 Hl1 Hrun1) as (ls1 & Hf1 & _ & -> & _).
    destruct (run_returns _ _ _ _ _ _ _ Hh2 Hl2 Hrun2) as (ls2 & Hf2 & _ & -> & _).
    congruence.
  - intros r1 r2 Hr1 Hr2.
    rewrite (run_past_reset _ _ _ _ _ _ Hr1 Hh1 Hl1).
    rewrite (run_past_reset _ _ _ _ _ _ Hr2 Hh2 Hl2).
    destruct (fit_predict k (x (waves high low w))) as [ls|]; [|reflexivity].
    destruct (length ls =? length (waves high low w)); reflexivity.
Qed.

(** Any call that returns leaves the old index as a new first column. *)
Lemma returned_frame_has_one_more_column df w k df' levels :
  DF.prices df "High" <> None -> DF.prices df "Low" <> None ->
  calculate_support_resistance df w k = (df', inr levels) ->
  df_index df' = df_index df
  /\ df_columns df'
     = (DF.reset_name df, DF.index_column (df_index df)) :: df_columns df.
Proof.
  intros Hh Hl Hrun.
  destruct (DF.prices df "High") as [high|] eqn:Eh; [|contradiction].
  destruct (DF.prices df "Low") as [low|] eqn:El; [|contradiction].
  destruct (run_returns _ _ _ _ _ _ _ Eh El Hrun) as (ls & _ & _ & _ & ->).
  split; reflexivity.
Qed.

(** C7 (the frame after the call).  On the one-bar frame the call returns
    with the index put back, and with a column ['Date'] in front of the five
    the caller passed: the frame is not the one that went in. *)
Theorem caller_frame_gains_a_column :
  fst (calculate_support_resistance one_bar 1 1)
  = mkDataFrame (df_index one_bar)
      (("Date"%string, Objects ["03-01-2022"%string]) :: df_columns one_bar)
  /\ fst (calculate_support_resistance one_bar 1 1) <> one_bar.
Proof.
  assert (Hrun : calculate_support_resistance one_bar 1 1
                 = (after_call one_bar, inr [12%Q; 10%Q])).
  { run_single_bar. rewrite one_cluster_labels by (simpl; lia).
    reflexivity. }
  rewrite Hrun. split; [reflexivity|discriminate].
Qed.

(** C1 (distinctness).  On a single flat bar with one cluster the call
    returns 100 twice: the duplicates that line 103 drops are dropped from a
    Series of its own ([Frame.unique] gives [[100]]), not from what is
    returned. *)
Theorem returned_levels_repeat_a_value :
  snd (calculate_support_resistance flat_bar 1 1) = inr [100%Q; 100%Q]
  /\ Frame.unique [100%Q; 100%Q] = [100%Q].
Proof.
  split; [|reflexivity].
  run_single_bar. rewrite one_cluster_labels by (simpl; lia).
  reflexivity.
Qed.

(** C6 (cluster count bound).  One bar with high 12 and low 10 and one
    cluster: two levels come back.  The peak and the trough of the bar carry
    the same index label, and [loc] returns both for the one label that
    [idxmax] names. *)
Theorem more_levels_than_clusters :
  snd (calculate_support_resistance one_bar 1 1) = inr [12%Q; 10%Q]
  /\ 1 < length [12%Q; 10%Q].
Proof.
  split; [|simpl; lia].
  run_single_bar. rewrite one_cluster_labels by (simpl; lia).
  reflexivity.
Qed.

(** The same bar with two clusters: clustering succeeds (two wave points,
    two clusters), both clusters have their maximum under the label 0, and
    four levels come back, whichever of the two points the clusterer
    numbers 0. *)
Lemma two_clusters_four_levels :
  length (waves [12%Q] [10%Q] 1) = 2
  /\ snd (calculate_support_resistance one_bar 1 2)
     = inr [12%Q; 10%Q; 12%Q; 10%Q].
Proof.
  split; [reflexivity|].
  run_single_bar.
  destruct (two_cluster_labels (12%Q, 1%Q) (10%Q, 1%Q)) as [H|H];
    simpl x; rewrite H; reflexivity.
Qed.

End Levels.


(** The evaluations above with the reference instance in place. *)
Lemma caller_frame_gains_a_column_witness :
  fst (@calculate_support_resistance reference_externals one_bar 1 1)
  = mkDataFrame (df_index one_bar)
      (("Date"%string, Objects ["03-01-2022"%string]) :: df_columns one_bar)
  /\ fst (@calculate_support_resistance reference_externals one_bar 1 1)
     <> one_bar.
Proof.
  exact (@caller_frame_gains_a_column reference_externals reference_contract).
Defined.

Lemma returned_levels_repeat_a_value_witness :
  snd (@calculate_support_resistance reference_externals flat_bar 1 1)
  = inr [100%Q; 100%Q]
  /\ Frame.unique [100%Q; 100%Q] = [100%Q].
Proof.
  exact (@returned_levels_repeat_a_value reference_externals reference_contract).
Defined.

Lemma more_levels_than_clusters_witness :
  snd (@calculate_support_resistance reference_externals one_bar 1 1)
  = inr [12%Q; 10%Q]
  /\ 1 < length [12%Q; 10%Q].
Proof.
  exact (@more_levels_than_clusters reference_externals reference_contract).
Defined.

(** [levels_are_observed_prices] at work on [one_bar]. *)
Lemma levels_are_observed_prices_witness :
  @calculate_support_resistance reference_externals one_bar 1 1
  = (after_call one_bar, inr [12%Q; 10%Q])
  /\ exists i, nth_error [12%Q] i = Some 10%Q \/ nth_error [10%Q] i = Some 10%Q.
Proof.
  split; [reflexivity|].
  apply (@levels_are_observed_prices reference_externals one_bar 1 1
           (after_call one_bar) [12%Q; 10%Q] [12%Q] [10%Q]);
    [reflexivity..|simpl; auto].
Defined.

(** C10 as it was read off the code fails on [one_bar] and the same frame
    with its index named ['Open']: the two frames have the same length and
    the same [High] and [Low], the first call returns the levels 12, 10 and
    the second raises the [ValueError] of [reset_index]. *)
Lemma index_name_decides_whether_the_call_returns :
  DF.len one_bar = DF.len one_bar_index_named_Open
  /\ DF.prices one_bar "High" = DF.prices one_bar_index_named_Open "High"
  /\ DF.prices one_bar "Low" = DF.prices one_bar_index_named_Open "Low"
  /\ snd (@calculate_support_resistance reference_externals one_bar 1 1)
     = inr [12%Q; 10%Q]
  /\ snd (@calculate_support_resistance reference_externals
            one_bar_index_named_Open 1 1)
     = inl ValueError.
Proof. repeat split; reflexivity. Qed.

(** [levels_depend_on_high_and_low_only] at work on [one_bar] and
    [other_bar]. *)
Lemma levels_depend_on_high_and_low_only_witness :
  snd (@calculate_support_resistance reference_externals one_bar 1 1)
  = snd (@calculate_support_resistance reference_externals other_bar 1 1).
Proof.
  refine (proj2 (@levels_depend_on_high_and_low_only reference_externals
                   one_bar other_bar 1 1 [12%Q] [10%Q] _ _ _ _) _ _ _ _);
    reflexivity.
Defined.

(** ** Too little history *)


Section ShortHistory.

Context {E : Externals} {C : Contract E}.

Lemma rolling_short f w xs v :
  length xs < w -> ~ In (Some v) (Rolling.rolling f w xs).
Proof.
  intros Hlen H. unfold Rolling.rolling in H.
  apply in_map_iff in H as (i & Hi & Hin). apply in_seq in Hin.
  replace (S i <? w) with true in Hi; [discriminate|].
  symmetry. apply Nat.ltb_lt. lia.
Qed.

(** Fewer bars than the window: no window is ever full, every row holds NaN
    and [dropna] leaves nothing. *)
Lemma waves_short high low w :
  length high < w -> length low < w -> waves high low w = [].
Proof.
  intros Hh Hl. destruct (waves high low w) as [|p ws] eqn:Hw; [reflexivity|].
  assert (Hin : In p (waves high low w)) by (rewrite Hw; now left).
  apply waves_value in Hin as [(_ & Hin & _)|(_ & Hin & _)].
  - now apply rolling_short in Hin.
  - now apply rolling_short in Hin.
Qed.

Lemma to_float_length col vs :
  DF.to_float col = inr vs -> length vs = DF.len_column col.
Proof.
  destruct col; simpl; intros [= <-]; auto using length_map.
Qed.

Lemma prices_length df c vs :
  DF.well_formed df -> DF.prices df c = Some vs -> length vs = DF.len df.
Proof.
  unfold DF.well_formed, DF.prices, DF.get. intros Hwf.
  destruct (find _ (df_columns df)) as [[n col]|] eqn:Hfind; simpl;
    [|discriminate].
  destruct (DF.to_float col) as [|vs'] eqn:Hf; [discriminate|].
  intros [= <-]. apply find_some in Hfind as [Hin _].
  rewrite Forall_forall in Hwf. specialize (Hwf _ Hin). simpl in Hwf.
  rewrite <- Hwf. now apply to_float_length.
Qed.

(** C4 (too little history), as the code has it.  When the frame has fewer
    bars than the window, or the wave series has fewer points than clusters
    are asked for, the call ends in the [ValueError] that scikit-learn
    raises: no level list is returned, and the frame is left with the reset
    index. *)
Theorem short_history_raises_ValueError df df1 w k high low :
  DF.well_formed df ->
  DF.reset_index df = inr df1 ->
  DF.prices df "High" = Some high ->
  DF.prices df "Low" = Some low ->
  DF.len df < w \/ length (waves high low w) < k ->
  calculate_support_resistance df w k = (df1, inl ValueError).
Proof.
  intros Hwf Hr Hh Hl Hshort.
  rewrite (run_past_reset _ _ _ _ _ _ Hr Hh Hl).
  rewrite fit_predict_raises; [reflexivity|].
  rewrite length_x. destruct Hshort as [Hlen|Hlen].
  - left. rewrite waves_short.
    + simpl. lia.
    + now rewrite (prices_length _ _ _ Hwf Hh).
    + now rewrite (prices_length _ _ _ Hwf Hl).
  - destruct (length (waves high low w)) as [|[|m]]; lia.
Qed.

End ShortHistory.

(** [short_history_raises_ValueError] at work: one bar, three clusters. *)
Lemma short_history_raises_ValueError_witness :
  fst (@calculate_support_resistance reference_externals one_bar 1 3)
  = mkDataFrame (mkIndex None (RangeIndex 1))
      (("Date"%string, Objects ["03-01-2022"%string]) :: df_columns one_bar)
  /\ snd (@calculate_support_resistance reference_externals one_bar 1 3)
     = inl ValueError.
Proof.
  rewrite (@short_history_raises_ValueError reference_externals
             reference_contract one_bar
             (mkDataFrame (mkIndex None (RangeIndex 1))
                (("Date"%string, Objects ["03-01-2022"%string])
                   :: df_columns one_bar))
             1 3 [12%Q] [10%Q]).
  - split; reflexivity.
  - repeat constructor.
  - reflexivity.
  - reflexivity.
  - reflexivity.
  - right. simpl. lia.
Defined.

(** C4 as the specification words it fails on one bar: with three clusters
    asked of two wave points, and with a window of two bars, what comes out
    is a [ValueError], which is neither of the two kinds the specification
    names. *)
Lemma short_history_error_is_not_of_the_named_kinds :
  length (@waves reference_externals [12%Q] [10%Q] 1) < 3
  /\ DF.len one_bar < 2
  /\ ~ (raises_kind
          (snd (@calculate_support_resistance reference_externals one_bar 1 3))
          "InsufficientHistory"
        \/ raises_kind
             (snd (@calculate_support_resistance reference_externals one_bar 1 3))
             "InvalidParameter")
  /\ ~ (raises_kind
          (snd (@calculate_support_resistance reference_externals one_bar 2 1))
          "InsufficientHistory"
        \/ raises_kind
             (snd (@calculate_support_resistance reference_externals one_bar 2 1))
             "InvalidParameter").
Proof.
  split; [simpl; lia|]. split; [unfold DF.len, DF.len_index; simpl; lia|].
  split; intros [(e & He & Hk)|(e & He & Hk)];
    vm_compute in He; injection He as <-; discriminate.
Qed.

(** ** Deduplication within one polarity *)


Section Dedup.

Lemma float_eqb_refl a : float_eqb a a = true.
Proof. destruct a as [q|]; simpl; [|reflexivity]. apply Qeq_bool_iff. reflexivity. Qed.

Lemma float_eqb_sym a b : float_eqb a b = float_eqb b a.
Proof.
  destruct a as [p|], b as [q|]; simpl; try reflexivity.
  apply eq_true_iff_eq. rewrite !Qeq_bool_iff. split; intros H; now symmetry.
Qed.

Lemma float_eqb_trans a b c :
  float_eqb a b = true -> float_eqb b c = true -> float_eqb a c = true.
Proof.
  destruct a as [p|], b as [q|], c as [r|]; simpl; try discriminate; auto.
  rewrite !Qeq_bool_iff. intros H1 H2. now rewrite H1.
Qed.

(** A value that equals a value seen before has itself been seen. *)
Lemma seen_upto_eq a b seen :
  float_eqb b a = true ->
  existsb (float_eqb a) seen = true -> existsb (float_eqb b) seen = true.
Proof.
  intros Hba H. apply existsb_exists in H as (s & Hs & Has).
  apply existsb_exists. exists s. split; [assumption|].
  eapply float_eqb_trans; eauto.
Qed.

Lemma drop_from_snoc seen rows r :
  Frame.drop_from seen (rows ++ [r])
  = Frame.drop_from seen rows
    ++ (if existsb (float_eqb (waves_ r)) seen
           || existsb (fun r' => float_eqb (waves_ r) (waves_ r')) rows
        then [] else [r]).
Proof.
  revert seen. induction rows as [|r0 rest IH]; intros seen; simpl.
  - rewrite orb_false_r. now destruct (existsb _ seen).
  - destruct (existsb (float_eqb (waves_ r0)) seen) eqn:H0.
    + rewrite IH. f_equal.
      destruct (float_eqb (waves_ r) (waves_ r0)) eqn:Hr0; [|reflexivity].
      now rewrite (seen_upto_eq _ _ _ Hr0 H0).
    + simpl. rewrite IH. simpl. do 2 f_equal.
      destruct (float_eqb (waves_ r) (waves_ r0)); simpl;
        [now rewrite orb_true_r|reflexivity].
Qed.

(** A row that stays holds none of the values seen before. *)
Lemma drop_from_fresh seen rows r :
  In r (Frame.drop_from seen rows) ->
  existsb (float_eqb (waves_ r)) seen = false.
Proof.
  revert seen. induction rows as [|r0 rest IH]; intros seen; simpl; [tauto|].
  destruct (existsb (float_eqb (waves_ r0)) seen) eqn:H0.
  - apply IH.
  - intros [<-|H]; [assumption|].
    apply IH in H. simpl in H. now apply orb_false_elim in H.
Qed.

Lemma drop_from_distinct seen rows :
  forall pre r post,
    Frame.drop_from seen rows = pre ++ r :: post ->
    forall r', In r' pre -> ~ same_value r' r.
Proof.
  revert seen. induction rows as [|r0 rest IH]; intros seen pre r post; simpl.
  - destruct pre; discriminate.
  - destruct (existsb (float_eqb (waves_ r0)) seen) eqn:H0.
    + apply IH.
    + destruct pre as [|p pre]; simpl; [tauto|].
      intros [= <- Hrest] r' [<-|Hin].
      * assert (Hr : In r (Frame.drop_from (waves_ r0 :: seen) rest))
          by (rewrite Hrest; apply in_or_app; right; now left).
        apply drop_from_fresh in Hr. simpl in Hr.
        apply orb_false_elim in Hr as [Hr _].
        unfold same_value. rewrite float_eqb_sym. congruence.
      * eapply IH; eauto.
Qed.

End Dedup.

(** C2 (deduplication within a polarity), as the code has it.
    [drop_duplicates('waves')] keeps a row exactly when no earlier row of
    the series, adjacent or not, holds the same value (NaN counts as a
    value): no two rows that stay hold the same value, and a row added at
    the end stays when its value has not occurred at all. *)
Theorem drop_duplicates_keeps_first_occurrences (rows : list row) :
  (forall pre r post,
      Frame.drop_duplicates rows = pre ++ r :: post ->
      forall r', In r' pre -> ~ same_value r' r)
  /\ (forall r,
         Frame.drop_duplicates (rows ++ [r])
         = Frame.drop_duplicates rows
           ++ (if existsb (fun r' => float_eqb (waves_ r) (waves_ r')) rows
               then [] else [r])).
Proof.
  split.
  - apply drop_from_distinct.
  - intros r. unfold Frame.drop_duplicates. now rewrite drop_from_snoc.
Qed.

(** C2 as the specification words it fails on the highs 5, 7, 5 with a
    window of one bar: the second 5 is not next to the first, dropping
    consecutive duplicates would keep it, and [max_waves] does not hold
    it. *)
Lemma distant_repeat_is_dropped :
  max_waves_temp [5%Q; 7%Q; 5%Q] 1 = [Some 5%Q; Some 7%Q; Some 5%Q]
  /\ drop_consecutive (Frame.with_polarity [Some 5%Q; Some 7%Q; Some 5%Q] 1%Q)
     = [mkrow 0 (Some 5%Q) 1%Q; mkrow 1 (Some 7%Q) 1%Q; mkrow 2 (Some 5%Q) 1%Q]
  /\ max_waves [5%Q; 7%Q; 5%Q] 1
     = [mkrow 0 (Some 5%Q) 1%Q; mkrow 1 (Some 7%Q) 1%Q]
  /\ max_waves [5%Q; 7%Q; 5%Q] 1
     <> drop_consecutive (Frame.with_polarity (max_waves_temp [5%Q; 7%Q; 5%Q] 1) 1%Q).
Proof.
  repeat split; try reflexivity. vm_compute. discriminate.
Qed.

(** [drop_duplicates_keeps_first_occurrences] at work on the highs 5, 7, 5:
    the two rows that stay hold different values. *)
Lemma drop_duplicates_keeps_first_occurrences_witness :
  ~ same_value (mkrow 0 (Some 5%Q) 1%Q) (mkrow 1 (Some 7%Q) 1%Q).
Proof.
  apply (proj1 (drop_duplicates_keeps_first_occurrences
                  (Frame.with_polarity [Some 5%Q; Some 7%Q; Some 5%Q] 1%Q))
               [mkrow 0 (Some 5%Q) 1%Q] (mkrow 1 (Some 7%Q) 1%Q) []);
    [reflexivity|simpl; auto].
Defined.

(** ** Rolling extremes of a trending series *)


Section Trend.

Lemma qmax_upper_l a b : (a <= qmax a b)%Q.
Proof.
  unfold qmax. destruct (Qcompare_spec a b) as [H|H|H].
  - apply Qle_refl.
  - now apply Qlt_le_weak.
  - apply Qle_refl.
Qed.

Lemma qmax_upper_r a b : (b <= qmax a b)%Q.
Proof.
  unfold qmax. destruct (Qcompare_spec a b) as [H|H|H].
  - rewrite H. apply Qle_refl.
  - apply Qle_refl.
  - now apply Qlt_le_weak.
Qed.

Lemma qmin_lower_l a b : (qmin a b <= a)%Q.
Proof.
  unfold qmin. destruct (Qcompare_spec a b) as [H|H|H].
  - apply Qle_refl.
  - apply Qle_refl.
  - now apply Qlt_le_weak.
Qed.

Lemma qmin_lower_r a b : (qmin a b <= b)%Q.
Proof.
  unfold qmin. destruct (Qcompare_spec a b) as [H|H|H].
  - rewrite H. apply Qle_refl.
  - now apply Qlt_le_weak.
  - apply Qle_refl.
Qed.

Lemma qmax_monotone : monotone qmax.
Proof.
  intros a a' b b' Ha Hb. destruct (qmax_cases a b) as [->| ->].
  - eapply Qle_trans; [exact Ha|apply qmax_upper_l].
  - eapply Qle_trans; [exact Hb|apply qmax_upper_r].
Qed.

Lemma qmin_monotone : monotone qmin.
Proof.
  intros a a' b b' Ha Hb. destruct (qmin_cases a' b') as [->| ->].
  - eapply Qle_trans; [apply qmin_lower_l|exact Ha].
  - eapply Qle_trans; [apply qmin_lower_r|exact Hb].
Qed.

Lemma fold_left_monotone f l1 l2 :
  monotone f -> Forall2 Qle l1 l2 ->
  forall a b, (a <= b)%Q -> (fold_left f l1 a <= fold_left f l2 b)%Q.
Proof.
  intros Hf H. induction H as [|u v l1 l2 Huv _ IH]; intros a b Hab; simpl.
  - exact Hab.
  - apply IH. now apply Hf.
Qed.

Lemma pointwise_Forall2 (l1 l2 : list Q) :
  length l1 = length l2 ->
  (forall t u v, nth_error l1 t = Some u -> nth_error l2 t = Some v -> (u <= v)%Q) ->
  Forall2 Qle l1 l2.
Proof.
  revert l2. induction l1 as [|u l1 IH]; intros [|v l2] Hlen Hpt;
    try discriminate; constructor.
  - now apply (Hpt 0).
  - apply IH; [simpl in Hlen; lia|].
    intros t. apply (Hpt (S t)).
Qed.

Lemma sorted_nth_error xs :
  Sorted Qle xs ->
  forall i j a b,
    i <= j -> nth_error xs i = Some a -> nth_error xs j = Some b -> (a <= b)%Q.
Proof.
  intros Hs. apply Sorted_StronglySorted in Hs; [|exact Qle_trans].
  induction Hs as [|x0 l Hl IH Hall]; intros i j a b Hij Hi Hj.
  - destruct i; discriminate.
  - destruct i as [|i], j as [|j]; simpl in Hi, Hj; try lia.
    + injection Hi as <-. injection Hj as <-. apply Qle_refl.
    + injection Hi as <-. rewrite Forall_forall in Hall.
      apply Hall. eapply nth_error_In; eauto.
    + apply (IH i j); auto. lia.
Qed.

Lemma rolling_nth_error f w xs i v :
  nth_error (Rolling.rolling f w xs) i = Some (Some v) ->
  i < length xs /\ w <= S i /\ Rolling.reduce f (Rolling.window w i xs) = Some v.
Proof.
  unfold Rolling.rolling. rewrite nth_error_map, nth_error_seq.
  destruct (i <? length xs) eqn:Hi; simpl; [|discriminate].
  apply Nat.ltb_lt in Hi.
  destruct (S i <? w) eqn:Hw; [discriminate|].
  apply Nat.ltb_ge in Hw. intros [= H]. auto.
Qed.

Lemma window_length w i xs :
  i < length xs -> w <= S i -> length (Rolling.window w i xs) = w.
Proof.
  intros Hi Hw. unfold Rolling.window.
  rewrite length_firstn, length_skipn. lia.
Qed.

Lemma window_nth_error w i xs t u :
  nth_error (Rolling.window w i xs) t = Some u ->
  nth_error xs (S i - w + t) = Some u.
Proof.
  unfold Rolling.window. rewrite nth_error_firstn.
  destruct (t <? w); [|discriminate]. now rewrite nth_error_skipn.
Qed.

(** Over sorted values a later window dominates an earlier one position by
    position, and so does what a monotone reduction makes of them. *)
Lemma rolling_monotone f w xs :
  monotone f -> Sorted Qle xs -> non_decreasing (Rolling.rolling f w xs).
Proof.
  intros Hf Hs i j a b Hij Hi Hj.
  apply rolling_nth_error in Hi as (Hi & Hwi & Ha).
  apply rolling_nth_error in Hj as (Hj & Hwj & Hb).
  assert (HF : Forall2 Qle (Rolling.window w i xs) (Rolling.window w j xs)).
  { apply pointwise_Forall2.
    - now rewrite !window_length.
    - intros t u v Hu Hv.
      apply window_nth_error in Hu. apply window_nth_error in Hv.
      eapply (sorted_nth_error xs Hs); [|exact Hu|exact Hv]. lia. }
  destruct HF as [|u v l1 l2 Huv HF]; simpl in Ha, Hb; [discriminate|].
  injection Ha as <-. injection Hb as <-.
  now apply fold_left_monotone.
Qed.

End Trend.

(** C8 (trending market), as the code has it.  The rolling maxima are taken
    of [High] and the rolling minima of [Low]: when the highs do not
    decrease neither does the rolling-max series, and when the lows do not
    decrease neither does the rolling-min series. *)
Theorem rolling_extremes_follow_their_own_column (high low : list Q) (w : nat) :
  (Sorted Qle high -> non_decreasing (max_waves_temp high w))
  /\ (Sorted Qle low -> non_decreasing (min_waves_temp low w)).
Proof.
  split; intros Hs.
  - apply rolling_monotone; [exact qmax_monotone|exact Hs].
  - apply rolling_monotone; [exact qmin_monotone|exact Hs].
Qed.

(** [rolling_extremes_follow_their_own_column] at work on rising highs and
    lows with a window of two bars. *)
Lemma rolling_extremes_follow_their_own_column_witness :
  max_waves_temp [10%Q; 12%Q; 15%Q] 2 = [NaN; Some 12%Q; Some 15%Q]
  /\ non_decreasing (max_waves_temp [10%Q; 12%Q; 15%Q] 2)
  /\ min_waves_temp [9%Q; 9%Q; 13%Q] 2 = [NaN; Some 9%Q; Some 9%Q]
  /\ non_decreasing (min_waves_temp [9%Q; 9%Q; 13%Q] 2).
Proof.
  split; [reflexivity|]. split.
  - apply (proj1 (rolling_extremes_follow_their_own_column
                    [10%Q; 12%Q; 15%Q] [9%Q; 9%Q; 13%Q] 2)).
    repeat constructor; unfold Qle; simpl; lia.
  - split; [reflexivity|].
    apply (proj2 (rolling_extremes_follow_their_own_column
                    [10%Q; 12%Q; 15%Q] [9%Q; 9%Q; 13%Q] 2)).
    repeat constructor; unfold Qle; simpl; lia.
Defined.

(** C8 as the specification words it fails on [rising_close]: the closes
    rise strictly, each bar has its low below and its high above its open
    and close, and with a window of one bar both the rolling-max series
    (20, 12) and the rolling-min series (5, 1) decrease. *)
Lemma rising_close_falling_extremes :
  DF.prices rising_close "Close" = Some [10%Q; 11%Q]
  /\ Sorted Qlt [10%Q; 11%Q]
  /\ DF.prices rising_close "High" = Some [20%Q; 12%Q]
  /\ DF.prices rising_close "Low" = Some [5%Q; 1%Q]
  /\ ~ non_decreasing (max_waves_temp [20%Q; 12%Q] 1)
  /\ ~ non_decreasing (min_waves_temp [5%Q; 1%Q] 1).
Proof.
  split; [reflexivity|]. split.
  { repeat constructor. }
  split; [reflexivity|]. split; [reflexivity|]. split.
  - intros H. specialize (H 0 1 20%Q 12%Q ltac:(lia) eq_refl eq_refl).
    revert H. unfold Qle. simpl. lia.
  - intros H. specialize (H 0 1 5%Q 1%Q ltac:(lia) eq_refl eq_refl).
    revert H. unfold Qle. simpl. lia.
Qed.

(** ** A flat series *)


Section Flat.

Context {E : Externals} {C : Contract E}.

Lemma window_one_repeat c n i :
  i < n -> Rolling.window 1 i (repeat c n) = [c].
Proof.
  intros Hi. unfold Rolling.window. simpl. rewrite Nat.sub_0_r.
  pose proof (hd_error_skipn i (repeat c n)) as Hhd.
  rewrite (nth_error_repeat c Hi) in Hhd.
  destruct (skipn i (repeat c n)) as [|c' rest]; [discriminate|].
  now injection Hhd as ->.
Qed.

Lemma rolling_one_repeat f c n :
  Rolling.rolling f 1 (repeat c n) = repeat (Some c) n.
Proof.
  unfold Rolling.rolling. rewrite repeat_length.
  transitivity (map (fun _ : nat => Some c) (seq 0 n)).
  - apply map_ext_in. intros i Hi. apply in_seq in Hi.
    simpl. now rewrite window_one_repeat by lia.
  - now rewrite map_const, length_seq.
Qed.

Lemma drop_from_all_seen seen rows :
  (forall r, In r rows -> existsb (float_eqb (waves_ r)) seen = true) ->
  Frame.drop_from seen rows = [].
Proof.
  induction rows as [|r rest IH]; intros H; simpl; [reflexivity|].
  rewrite (H r (or_introl eq_refl)). apply IH.
  intros r' Hr'. apply H. now right.
Qed.

(** A constant series keeps its first row only. *)
Lemma drop_duplicates_constant v p n :
  Frame.drop_duplicates (Frame.with_polarity (repeat v (S n)) p)
  = [mkrow 0 v p].
Proof.
  unfold Frame.drop_duplicates, Frame.with_polarity. simpl. f_equal.
  apply drop_from_all_seen. intros r Hr.
  apply in_map_iff in Hr as ([i v'] & <- & Hin). simpl.
  apply in_combine_r, repeat_spec in Hin. subst v'.
  now rewrite float_eqb_refl.
Qed.

Lemma waves_flat_window_one n :
  waves (flat (S n)) (flat (S n)) 1
  = [mkwave 0 100%Q 1%Q; mkwave 0 100%Q (-1 # 1)%Q].
Proof.
  unfold waves, merged, max_waves, min_waves, max_waves_temp, min_waves_temp,
    flat.
  now rewrite !rolling_one_repeat, !drop_duplicates_constant.
Qed.

(** C5 (flat series), as the code has it.  On bars that all have high and
    low 100, every wave point holds 100 whatever the window; with a window
    of one bar deduplication leaves two wave points, the peak and the trough
    of the first bar; and with one cluster every level that comes back is
    100, and with a window of one bar levels do come back. *)
Theorem flat_series_has_a_peak_and_a_trough df n w :
  DF.prices df "High" = Some (flat (S n)) ->
  DF.prices df "Low" = Some (flat (S n)) ->
  (forall p, In p (waves (flat (S n)) (flat (S n)) w) -> value p = 100%Q)
  /\ waves (flat (S n)) (flat (S n)) 1
     = [mkwave 0 100%Q 1%Q; mkwave 0 100%Q (-1 # 1)%Q]
  /\ (forall df' levels,
         calculate_support_resistance df w 1 = (df', inr levels) ->
         Forall (eq 100%Q) levels)
  /\ (forall df1,
         DF.reset_index df = inr df1 ->
         exists levels,
           calculate_support_resistance df 1 1 = (after_call df, inr levels)
           /\ levels <> []).
Proof.
  intros Hh Hl.
  assert (Hval : forall w' p,
             In p (waves (flat (S n)) (flat (S n)) w') -> value p = 100%Q).
  { intros w' p Hp.
    apply waves_value in Hp as [(_ & _ & Hin)|(_ & _ & Hin)];
      now apply repeat_spec in Hin. }
  split; [apply Hval|]. split; [apply waves_flat_window_one|]. split.
  - intros df' levels Hrun.
    destruct (run_returns _ _ _ _ _ _ _ Hh Hl Hrun) as (ls & _ & _ & -> & _).
    apply Forall_forall. intros v Hv.
    apply waves2_values in Hv as (p & Hp & <-).
    symmetry. now apply (Hval w).
  - intros df1 Hr.
    rewrite (run_past_reset _ _ _ _ _ _ Hr Hh Hl).
    rewrite waves_flat_window_one, one_cluster_labels by (simpl; lia).
    eexists. split; [reflexivity|]. discriminate.
Qed.

End Flat.

(** [flat_series_has_a_peak_and_a_trough] at work on [flat_bar]. *)
Lemma flat_series_has_a_peak_and_a_trough_witness :
  exists levels,
    @calculate_support_resistance reference_externals flat_bar 1 1
    = (after_call flat_bar, inr levels)
    /\ levels <> [].
Proof.
  refine (proj2 (proj2 (proj2
            (@flat_series_has_a_peak_and_a_trough reference_externals
               reference_contract flat_bar 0 1 _ _))) _ _); reflexivity.
Defined.

(** C5 as the specification words it fails on [flat_bar]: with a window of
    one bar two wave points are left, not one, and one cluster gives the
    levels 100, 100, not the single level 100; with a window of two bars no
    wave point is left and the call raises. *)
Lemma flat_bar_has_two_wave_points :
  length (@waves reference_externals [100%Q] [100%Q] 1) = 2
  /\ snd (@calculate_support_resistance reference_externals flat_bar 1 1)
     <> inr [100%Q]
  /\ @waves reference_externals [100%Q] [100%Q] 2 = []
  /\ snd (@calculate_support_resistance reference_externals flat_bar 2 1)
     = inl ValueError.
Proof.
  split; [reflexivity|]. split; [vm_compute; discriminate|].
  split; reflexivity.
Qed.

(** ** How many levels come back *)

Section Count.

Context {E : Externals} {C : Contract E}.

Lemma filter_map_length {A B} (g : A -> B) (P : B -> bool) l :
  length (filter P (map g l)) = length (filter (fun a => P (g a)) l).
Proof.
  induction l as [|a l IH]; simpl; [reflexivity|].
  destruct (P (g a)); simpl; now rewrite IH.
Qed.

Lemma filter_combine_le {A B} (P : A -> bool) (xs : list A) (ys : list B) :
  length (filter (fun ab => P (fst ab)) (combine xs ys)) <= length (filter P xs).
Proof.
  revert ys. induction xs as [|a xs IH]; intros [|b ys]; simpl; try lia.
  specialize (IH ys). destruct (P a); simpl; lia.
Qed.

Lemma perm_filter_length {A} (P : A -> bool) l l' :
  Permutation l l' -> length (filter P l) = length (filter P l').
Proof.
  induction 1 as [|a l l' _ IH|a b l|l l' l'' _ IH1 _ IH2]; simpl.
  - reflexivity.
  - destruct (P a); simpl; now rewrite IH.
  - destruct (P a), (P b); reflexivity.
  - congruence.
Qed.

Lemma filter_nonempty {A} (P : A -> bool) l a :
  In a l -> P a = true -> 1 <= length (filter P l).
Proof.
  intros Hin HP.
  assert (H : In a (filter P l)) by (apply filter_In; auto).
  destruct (filter P l); [contradiction|simpl; lia].
Qed.

Lemma seq_above l n a :
  l < a -> filter (fun i => i =? l) (seq a n) = [].
Proof.
  revert a. induction n as [|n IH]; intros a Hl; simpl; [reflexivity|].
  replace (a =? l) with false by (symmetry; apply Nat.eqb_neq; lia).
  apply IH. lia.
Qed.

Lemma seq_at_most_once l n a :
  length (filter (fun i => i =? l) (seq a n)) <= 1.
Proof.
  revert a. induction n as [|n IH]; intros a; simpl; [lia|].
  destruct (a =? l) eqn:Ha; [|apply IH].
  apply Nat.eqb_eq in Ha. rewrite seq_above by lia. simpl. lia.
Qed.


Lemma with_polarity_at l s p :
  length (rows_at l (Frame.with_polarity s p)) <= 1.
Proof.
  unfold rows_at, Frame.with_polarity. rewrite filter_map_length. simpl.
  etransitivity; [|apply (seq_at_most_once l (length s) 0)].
  apply (filter_combine_le (fun i => i =? l)).
Qed.

Lemma drop_from_filter_le (P : row -> bool) seen rows :
  length (filter P (Frame.drop_from seen rows)) <= length (filter P rows).
Proof.
  revert seen. induction rows as [|r rest IH]; intros seen; simpl; [lia|].
  destruct (existsb _ seen); simpl.
  - specialize (IH seen). destruct (P r); simpl; lia.
  - specialize (IH (waves_ r :: seen)). destruct (P r); simpl; lia.
Qed.

Lemma take_all (pre rows : list row) :
  flat_map (fun p => match nth_error (pre ++ rows) p with
                     | Some r => [r]
                     | None => []
                     end) (seq (length pre) (length rows))
  = rows.
Proof.
  revert pre. induction rows as [|r rest IH]; intros pre; simpl; [reflexivity|].
  rewrite nth_error_app2, Nat.sub_diag by lia. simpl. f_equal.
  specialize (IH (pre ++ [r])).
  rewrite <- app_assoc, length_app, Nat.add_1_r in IH. exact IH.
Qed.

(** [sort_index] moves rows and neither drops nor repeats one. *)
Lemma sort_index_perm rows : Permutation (sort_index rows) rows.
Proof.
  unfold sort_index.
  destruct (Frame.is_monotonic_increasing _); [reflexivity|].
  rewrite (argsort_perm (map label rows)), length_map.
  pose proof (take_all [] rows) as Hall. simpl in Hall. now rewrite Hall.
Qed.

Lemma select_filter_le (P : row -> bool) rows mask :
  length (filter P (Frame.select rows mask)) <= length (filter P rows).
Proof.
  unfold Frame.select.
  revert mask. induction rows as [|r rest IH]; intros [|b mask]; simpl; try lia.
  specialize (IH mask). destruct b; simpl; destruct (P r); simpl; lia.
Qed.

Lemma dropna_at l rows :
  length (waves_at l (Frame.dropna rows)) <= length (rows_at l rows).
Proof.
  unfold waves_at, rows_at, Frame.dropna.
  induction rows as [|r rest IH]; simpl; [lia|].
  rewrite filter_app, length_app.
  destruct (waves_ r); simpl; destruct (label r =? l); simpl; lia.
Qed.

(** An index label is that of one bar: at most its peak and its trough
    carry it. *)
Lemma waves_at_most_two high low w l :
  length (waves_at l (waves high low w)) <= 2.
Proof.
  unfold waves, merged.
  etransitivity; [apply dropna_at|]. unfold rows_at.
  etransitivity; [apply select_filter_le|].
  rewrite (perm_filter_length _ _ _ (sort_index_perm _)).
  rewrite filter_app, length_app.
  pose proof (with_polarity_at l (max_waves_temp high w) 1%Q) as Hmax.
  pose proof (with_polarity_at l (min_waves_temp low w) (-1 # 1)%Q) as Hmin.
  pose proof (drop_from_filter_le (fun r => label r =? l) []
                (Frame.with_polarity (max_waves_temp high w) 1%Q)).
  pose proof (drop_from_filter_le (fun r => label r =? l) []
                (Frame.with_polarity (min_waves_temp low w) (-1 # 1)%Q)).
  unfold max_waves, min_waves, Frame.drop_duplicates, rows_at in *. lia.
Qed.

End Count.

Section LevelCount.

Context {E : Externals} {C : Contract E}.

Lemma idxmax_in g l :
  Frame.idxmax g = Some l -> exists p, In p g /\ wlabel p = l.
Proof.
  destruct g as [|r rest]; simpl; [discriminate|]. intros [= <-].
  eexists. split; [|reflexivity].
  apply (fold_left_picks
           (fun best q => match (value q ?= value best)%Q with
                          | Gt => q
                          | _ => best
                          end)).
  intros a b. destruct (value b ?= value a)%Q; auto.
Qed.

Lemma group_in rows c p : In p (Frame.group rows c) -> In (p, c) rows.
Proof.
  unfold Frame.group. intros H.
  apply in_map_iff in H as ([p' c'] & <- & Hin).
  apply filter_In in Hin as [Hin Hc]. simpl in *.
  apply Nat.eqb_eq in Hc. now subst c'.
Qed.

(** Every label that [idxmax] names is the label of a row. *)
Lemma groupby_idxmax_in rows l :
  In l (Frame.groupby_idxmax rows) ->
  exists p c, In (p, c) rows /\ wlabel p = l.
Proof.
  unfold Frame.groupby_idxmax. intros H.
  apply in_flat_map in H as (c & _ & H).
  destruct (Frame.idxmax (Frame.group rows c)) as [l'|] eqn:Hmax;
    [|contradiction].
  destruct H as [<-|[]].
  apply idxmax_in in Hmax as (p & Hp & Hl).
  exists p, c. split; [now apply group_in|assumption].
Qed.

Lemma group_keys_in cs c : In c (Frame.group_keys cs) -> In c cs.
Proof.
  unfold Frame.group_keys. intros H. apply filter_In in H as [_ H].
  apply existsb_exists in H as (c' & Hin & Heq).
  apply Nat.eqb_eq in Heq. now subst c'.
Qed.

(** One label for every cluster id that occurs. *)
Lemma groupby_idxmax_length rows :
  length (Frame.groupby_idxmax rows)
  = length (Frame.group_keys (map snd rows)).
Proof.
  unfold Frame.groupby_idxmax.
  assert (H : forall c, In c (Frame.group_keys (map snd rows)) ->
                        Frame.idxmax (Frame.group rows c) <> None).
  { intros c Hc. apply group_keys_in in Hc.
    apply in_map_iff in Hc as ([p c'] & Hc' & Hin). simpl in Hc'. subst c'.
    unfold Frame.group.
    assert (Hg : In p (map fst (filter (fun rc => snd rc =? c) rows))).
    { apply in_map_iff. exists (p, c). split; [reflexivity|].
      apply filter_In. split; [assumption|]. apply Nat.eqb_refl. }
    destruct (map fst (filter (fun rc => snd rc =? c) rows));
      [contradiction|discriminate]. }
  induction (Frame.group_keys (map snd rows)) as [|c keys IH]; simpl;
    [reflexivity|].
  rewrite length_app, IH by (intros; apply H; now right).
  specialize (H c (or_introl eq_refl)).
  destruct (Frame.idxmax (Frame.group rows c)); [reflexivity|contradiction].
Qed.

Lemma filter_seq_le (P : nat -> bool) k m :
  (forall c, P c = true -> c < k) ->
  length (filter P (seq 0 m)) <= Nat.min m k.
Proof.
  intros HP. induction m as [|m IH]; [simpl; lia|].
  rewrite seq_S, filter_app, length_app. cbn [filter Nat.add].
  destruct (P m) eqn:Hm; cbn [length]; [|lia].
  apply HP in Hm. lia.
Qed.

Lemma filter_seq_all (P : nat -> bool) m :
  (forall c, c < m -> P c = true) -> filter P (seq 0 m) = seq 0 m.
Proof.
  intros HP. induction m as [|m IH]; [reflexivity|].
  rewrite seq_S, filter_app, IH by (intros; apply HP; lia).
  simpl. now rewrite HP by lia.
Qed.

Lemma group_keys_le cs k :
  (forall c, In c cs -> c < k) -> length (Frame.group_keys cs) <= k.
Proof.
  intros H. unfold Frame.group_keys.
  etransitivity; [apply (filter_seq_le _ k)|lia].
  intros c Hc. apply existsb_exists in Hc as (c' & Hin & Heq).
  apply Nat.eqb_eq in Heq. subst c'. now apply H.
Qed.

Lemma group_keys_all cs k :
  (forall c, In c cs -> c < k) -> (forall c, c < k -> In c cs) ->
  Frame.group_keys cs = seq 0 k.
Proof.
  intros Hlt Hall. unfold Frame.group_keys.
  destruct k as [|k].
  - destruct cs as [|c cs]; [reflexivity|].
    specialize (Hlt c (or_introl eq_refl)). lia.
  - assert (Hmax : list_max cs = k).
    { apply Nat.le_antisymm.
      - apply list_max_le, Forall_forall. intros c Hc.
        specialize (Hlt c Hc). lia.
      - pose proof (proj1 (list_max_le cs (list_max cs)) (Nat.le_refl _)) as Hle.
        rewrite Forall_forall in Hle. apply Hle, Hall. lia. }
    rewrite Hmax. apply filter_seq_all.
    intros c Hc. apply existsb_exists. exists c.
    split; [now apply Hall|apply Nat.eqb_refl].
Qed.

Lemma loc_length_le rows labels :
  (forall l, length (filter (fun rc => wlabel (fst rc) =? l) rows) <= 2) ->
  length (Frame.loc rows labels) <= 2 * length labels.
Proof.
  intros H. unfold Frame.loc.
  induction labels as [|l labels IH]; simpl; [lia|].
  rewrite length_app. specialize (H l). lia.
Qed.

Lemma loc_length_ge rows labels :
  (forall l, In l labels ->
             1 <= length (filter (fun rc => wlabel (fst rc) =? l) rows)) ->
  length labels <= length (Frame.loc rows labels).
Proof.
  intros H. unfold Frame.loc.
  induction labels as [|l labels IH]; simpl; [lia|].
  rewrite length_app.
  pose proof (H l (or_introl eq_refl)).
  assert (length labels
          <= length (flat_map
                       (fun l0 => filter (fun rc => wlabel (fst rc) =? l0) rows)
                       labels))
    by (apply IH; intros; apply H; now right).
  lia.
Qed.

Lemma map_snd_combine {A B} (xs : list A) (ys : list B) :
  length ys = length xs -> map snd (combine xs ys) = ys.
Proof.
  revert ys. induction xs as [|a xs IH]; intros [|b ys] Hlen; simpl;
    try discriminate; [reflexivity|].
  f_equal. apply IH. simpl in Hlen. lia.
Qed.

(** What scikit-learn returned, read back from a label vector. *)
Lemma labels_of_success k xs labels_ :
  fit_predict k xs = Some labels_ ->
  1 <= k
  /\ (forall c, In c labels_ -> c < k) /\ (forall c, c < k -> In c labels_).
Proof.
  intros Hfit.
  destruct (le_lt_dec 2 (length xs)) as [H2|H2];
    [|rewrite fit_predict_raises in Hfit by lia; discriminate].
  destruct (le_lt_dec 1 k) as [H1|H1];
    [|rewrite fit_predict_raises in Hfit by lia; discriminate].
  destruct (le_lt_dec k (length xs)) as [Hk|Hk];
    [|rewrite fit_predict_raises in Hfit by lia; discriminate].
  destruct (fit_predict_labels k xs H2 (conj H1 Hk)) as (ls & Hls & _ & Hlt & Hall).
  rewrite Hls in Hfit. injection Hfit as <-. auto.
Qed.

(** Every call that returns gives at least one level for each cluster and
    at most two: [idxmax] names one index label per cluster, and [loc] finds
    one or two rows under it. *)
Lemma level_count_bounds df w k df' levels high low :
  DF.prices df "High" = Some high ->
  DF.prices df "Low" = Some low ->
  calculate_support_resistance df w k = (df', inr levels) ->
  k <= length levels <= 2 * k.
Proof.
  intros Hh Hl Hrun.
  destruct (run_returns _ _ _ _ _ _ _ Hh Hl Hrun) as (ls & Hfit & Hlen & -> & _).
  apply labels_of_success in Hfit as (Hk & Hlt & Hall).
  unfold column_waves, waves2. rewrite length_map.
  set (rows := combine (waves high low w) ls).
  assert (Hkeys : length (Frame.groupby_idxmax rows) = k).
  { rewrite groupby_idxmax_length. unfold rows.
    rewrite map_snd_combine by assumption.
    now rewrite (group_keys_all ls k Hlt Hall), length_seq. }
  split.
  - rewrite <- Hkeys at 1. apply loc_length_ge.
    intros l Hin. apply groupby_idxmax_in in Hin as (p & c & Hin & Hp).
    apply (filter_nonempty _ _ (p, c)); [assumption|].
    simpl. subst l. apply Nat.eqb_refl.
  - rewrite <- Hkeys. apply loc_length_le. intros l.
    etransitivity; [apply (filter_combine_le (fun p => wlabel p =? l))|].
    apply waves_at_most_two.
Qed.

End LevelCount.

(** ** What each cluster contributes *)

Section Clusters.

Context {E : Externals} {C : Contract E}.






End Clusters.



(** ** The caller's frame after a call, returned or raised *)

Section FrameEffect.

Context {E : Externals}.

(** A call ends in one of three ways: [reset_index] raises and nothing has
    happened; something later raises and the frame stays as [reset_index]
    left it; or the call returns and line 102 has put the index back. *)
Lemma run_cases df w k :
  match DF.reset_index df with
  | inl e => calculate_support_resistance df w k = (df, inl e)
  | inr df1 =>
      (exists e, calculate_support_resistance df w k = (df1, inl e))
      \/ (exists levels,
             calculate_support_resistance df w k = (after_call df, inr levels))
  end.
Proof.
  destruct (DF.reset_index df) as [e|df1] eqn:Hr.
  - now apply run_reset_raises.
  - unfold calculate_support_resistance, body, bind, get_index,
      reset_index_inplace.
    rewrite Hr. unfold numeric_column.
    destruct (DF.get df1 "High") as [ch|]; [|left; now eexists].
    destruct (DF.to_float ch) as [e|high]; [left; now eexists|]. simpl.
    destruct (DF.get df1 "Low") as [cl|]; [|left; now eexists].
    destruct (DF.to_float cl) as [e|low]; [left; now eexists|]. simpl.
    unfold cluster.
    destruct (fit_predict k (x (waves high low w))) as [ls|];
      [|left; now eexists].
    destruct (length ls =? length (waves high low w)); [|left; now eexists].
    right. eexists. unfold set_index, ret, after_call. simpl.
    unfold DF.reset_index in Hr.
    destruct (DF.has_column df (DF.reset_name df)); [discriminate|].
    injection Hr as <-. reflexivity.
Qed.

Lemma get_after_call df c col :
  DF.has_column df (DF.reset_name df) = false ->
  DF.get df c = Some col -> DF.get (after_call df) c = Some col.
Proof.
  intros Hfree Hget. unfold DF.get at 1. simpl.
  destruct (String.eqb (DF.reset_name df) c) eqn:Heq; [|exact Hget].
  apply String.eqb_eq in Heq. subst c.
  apply get_has_column in Hget. congruence.
Qed.

(** A call that returns got past [reset_index] and hands back
    [after_call]. *)
Lemma returned_frame_shape df w k df' levels :
  calculate_support_resistance df w k = (df', inr levels) ->
  df' = after_call df /\ DF.has_column df (DF.reset_name df) = false.
Proof.
  intros Hrun. pose proof (run_cases df w k) as Hcases.
  destruct (DF.reset_index df) as [e|df1] eqn:Hr.
  - rewrite Hcases in Hrun. discriminate.
  - destruct Hcases as [[e He]|[ls Hls]]; [rewrite He in Hrun; discriminate|].
    rewrite Hls in Hrun. injection Hrun as <- _. split; [reflexivity|].
    unfold DF.reset_index in Hr.
    now destruct (DF.has_column df (DF.reset_name df)).
Qed.

(** Whenever a call returns, the caller's frame has its index back, holds
    one more column (the old index, in front), and every column it had
    reads as before. *)
Theorem returned_frame_keeps_index_and_columns df w k df' levels :
  calculate_support_resistance df w k = (df', inr levels) ->
  df_index df' = df_index df
  /\ df_columns df'
     = (DF.reset_name df, DF.index_column (df_index df)) :: df_columns df
  /\ forall c col, DF.get df c = Some col -> DF.get df' c = Some col.
Proof.
  intros Hrun. apply returned_frame_shape in Hrun as [-> Hfree].
  split; [reflexivity|]. split; [reflexivity|].
  intros c col Hget. now apply get_after_call.
Qed.

(** A call that raises does not put the index back: either [reset_index]
    itself raised and the frame is untouched, or the frame is left as
    [reset_index] made it, numbered anew and with the old index as a
    column. *)
Theorem raising_call_leaves_index_reset df w k df' e :
  calculate_support_resistance df w k = (df', inl e) ->
  (DF.reset_index df = inl e /\ df' = df)
  \/ (DF.reset_index df = inr df'
      /\ df_index df' = mkIndex None (RangeIndex (DF.len df))).
Proof.
  intros Hrun. pose proof (run_cases df w k) as Hcases.
  destruct (DF.reset_index df) as [e0|df1] eqn:Hr.
  - rewrite Hcases in Hrun. injection Hrun as <- <-. now left.
  - destruct Hcases as [[e0 He]|[ls Hls]]; [|rewrite Hls in Hrun; discriminate].
    rewrite He in Hrun. injection Hrun as <- <-. right. split; [reflexivity|].
    unfold DF.reset_index in Hr.
    destruct (DF.has_column df (DF.reset_name df)); [discriminate|].
    now injection Hr as <-.
Qed.

(** A frame whose index has a name goes through the function once: after a
    call that returned, any further call on the same frame raises the
    [ValueError] of [reset_index] (the column of that name exists already)
    and leaves the frame as it is. *)
Theorem second_call_raises df w k df' levels nm w' k' :
  index_name (df_index df) = Some nm ->
  calculate_support_resistance df w k = (df', inr levels) ->
  calculate_support_resistance df' w' k' = (df', inl ValueError).
Proof.
  intros Hname Hrun. apply returned_frame_shape in Hrun as [-> _].
  apply run_reset_raises. unfold DF.reset_index, DF.reset_name, after_call.
  simpl. rewrite Hname. unfold DF.has_column. simpl.
  unfold DF.reset_name. rewrite Hname. now rewrite String.eqb_refl.
Qed.

(** Without a column [High] to read (and no index of that name to take its
    place) the call raises [AttributeError] on line 84, before anything is
    computed, and leaves the frame with the reset index. *)
Theorem missing_High_raises_AttributeError df df1 w k :
  DF.reset_index df = inr df1 ->
  DF.has_column df "High" = false ->
  DF.reset_name df <> "High"%string ->
  calculate_support_resistance df w k = (df1, inl AttributeError).
Proof.
  intros Hr Hno Hname.
  assert (Hget : DF.get df1 "High" = None).
  { unfold DF.reset_index in Hr.
    destruct (DF.has_column df (DF.reset_name df)); [discriminate|].
    injection Hr as <-. unfold DF.get. simpl.
    destruct (String.eqb (DF.reset_name df) "High") eqn:Heq.
    - apply String.eqb_eq in Heq. contradiction.
    - unfold DF.has_column in Hno.
      destruct (find _ (df_columns df)) as [kv|] eqn:Hfind; [|reflexivity].
      apply find_some in Hfind as [Hin Hkv].
      assert (Hex : existsb (fun kv => String.eqb (fst kv) "High")
                            (df_columns df) = true)
        by (apply existsb_exists; eauto).
      congruence. }
  unfold calculate_support_resistance, body, bind, get_index,
    reset_index_inplace.
  rewrite Hr. unfold numeric_column. now rewrite Hget.
Qed.

End FrameEffect.

(** [returned_frame_keeps_index_and_columns] at work on [one_bar]: the
    column [Close] reads as before. *)
Lemma returned_frame_keeps_index_and_columns_witness :
  DF.get (after_call one_bar) "Close" = Some (Floats [11%Q]).
Proof.
  apply (proj2 (proj2
           (@returned_frame_keeps_index_and_columns reference_externals
              one_bar 1 1 (after_call one_bar) [12%Q; 10%Q] eq_refl)));
    reflexivity.
Defined.

(** [raising_call_leaves_index_reset] at work on [one_bar] with three
    clusters. *)
Lemma raising_call_leaves_index_reset_witness :
  (DF.reset_index one_bar = inl ValueError
   /\ fst (@calculate_support_resistance reference_externals one_bar 1 3)
      = one_bar)
  \/ (DF.reset_index one_bar
      = inr (fst (@calculate_support_resistance reference_externals one_bar 1 3))
      /\ df_index (fst (@calculate_support_resistance reference_externals
                          one_bar 1 3))
         = mkIndex None (RangeIndex (DF.len one_bar))).
Proof.
  apply (@raising_call_leaves_index_reset reference_externals one_bar 1 3).
  reflexivity.
Defined.

(** [second_call_raises] at work on [one_bar]. *)
Lemma second_call_raises_witness :
  @calculate_support_resistance reference_externals (after_call one_bar) 5 2
  = (after_call one_bar, inl ValueError).
Proof.
  apply (@second_call_raises reference_externals one_bar 1 1
           (after_call one_bar) [12%Q; 10%Q] "Date"%string 5 2);
    reflexivity.
Defined.

(** A frame like [one_bar] without its column [High]. *)
Lemma missing_High_raises_AttributeError_witness :
  snd (@calculate_support_resistance reference_externals
         (mkDataFrame (df_index one_bar) [("Low"%string, Floats [10%Q])]) 1 1)
  = inl AttributeError.
Proof.
  erewrite (@missing_High_raises_AttributeError reference_externals);
    try reflexivity.
  discriminate.
Defined.

(** ** The rolling extremes of lines 84-85 *)

Section RollingFacts.

Lemma rolling_length f w xs : length (Rolling.rolling f w xs) = length xs.
Proof. unfold Rolling.rolling. now rewrite length_map, length_seq. Qed.

Lemma rolling_nan_positions f w xs i :
  1 <= w -> i < length xs ->
  (nth_error (Rolling.rolling f w xs) i = Some NaN <-> S i < w).
Proof.
  intros Hw Hi. unfold Rolling.rolling.
  rewrite nth_error_map, nth_error_seq.
  replace (i <? length xs) with true by (symmetry; now apply Nat.ltb_lt).
  simpl. destruct (S i <? w) eqn:Hlt.
  - apply Nat.ltb_lt in Hlt. split; [intros _; exact Hlt|reflexivity].
  - apply Nat.ltb_ge in Hlt.
    pose proof (window_length w i xs Hi Hlt) as Hlen.
    destruct (Rolling.window w i xs) as [|x0 rest]; simpl in *; [lia|].
    split; [discriminate|lia].
Qed.

Lemma fold_qmax_upper rest x0 :
  (x0 <= fold_left qmax rest x0)%Q
  /\ forall v, In v rest -> (v <= fold_left qmax rest x0)%Q.
Proof.
  revert x0. induction rest as [|y rest IH]; intros x0; simpl.
  - split; [apply Qle_refl|tauto].
  - destruct (IH (qmax x0 y)) as [H0 Hrest]. split.
    + eapply Qle_trans; [apply qmax_upper_l|exact H0].
    + intros v [<-|Hv]; [|auto].
      eapply Qle_trans; [apply qmax_upper_r|exact H0].
Qed.

Lemma fold_qmin_lower rest x0 :
  (fold_left qmin rest x0 <= x0)%Q
  /\ forall v, In v rest -> (fold_left qmin rest x0 <= v)%Q.
Proof.
  revert x0. induction rest as [|y rest IH]; intros x0; simpl.
  - split; [apply Qle_refl|tauto].
  - destruct (IH (qmin x0 y)) as [H0 Hrest]. split.
    + eapply Qle_trans; [exact H0|apply qmin_lower_l].
    + intros v [<-|Hv]; [|auto].
      eapply Qle_trans; [exact H0|apply qmin_lower_r].
Qed.

Lemma reduce_qmax_upper xs a v :
  Rolling.reduce qmax xs = Some a -> In v xs -> (v <= a)%Q.
Proof.
  destruct xs as [|x0 rest]; simpl; [discriminate|]. intros [= <-] [<-|Hv].
  - apply (proj1 (fold_qmax_upper rest x0)).
  - now apply (proj2 (fold_qmax_upper rest x0)).
Qed.

Lemma reduce_qmin_lower xs b v :
  Rolling.reduce qmin xs = Some b -> In v xs -> (b <= v)%Q.
Proof.
  destruct xs as [|x0 rest]; simpl; [discriminate|]. intros [= <-] [<-|Hv].
  - apply (proj1 (fold_qmin_lower rest x0)).
  - now apply (proj2 (fold_qmin_lower rest x0)).
Qed.

(** The window that ends at [i] holds the positions [i+1-w .. i]. *)
Lemma in_window w i xs j v :
  i < length xs -> w <= S i -> S i - w <= j <= i ->
  nth_error xs j = Some v -> In v (Rolling.window w i xs).
Proof.
  intros Hi Hw Hj Hv. unfold Rolling.window.
  apply (nth_error_In _ (j - (S i - w))).
  rewrite nth_error_firstn.
  replace (j - (S i - w) <? w) with true by (symmetry; apply Nat.ltb_lt; lia).
  rewrite nth_error_skipn. now replace (S i - w + (j - (S i - w))) with j by lia.
Qed.

Lemma window_in w i xs v :
  w <= S i -> In v (Rolling.window w i xs) ->
  exists j, S i - w <= j <= i /\ nth_error xs j = Some v.
Proof.
  intros Hw Hin. apply In_nth_error in Hin as [t Ht].
  pose proof Ht as Hlt. unfold Rolling.window in Hlt.
  rewrite nth_error_firstn in Hlt.
  destruct (t <? w) eqn:Htw; [|discriminate]. apply Nat.ltb_lt in Htw.
  apply window_nth_error in Ht. exists (S i - w + t). split; [lia|assumption].
Qed.

Lemma Forall2_nth_error {A B} (R : A -> B -> Prop) l1 l2 i a b :
  Forall2 R l1 l2 -> nth_error l1 i = Some a -> nth_error l2 i = Some b ->
  R a b.
Proof.
  intros H. revert i. induction H as [|x y l1 l2 Hxy _ IH]; intros [|i]; simpl;
    try discriminate.
  - now intros [= <-] [= <-].
  - apply IH.
Qed.

End RollingFacts.

(** Every value of the rolling-max series is the largest high of the [w]
    bars that end at its position: one of them, and not below any of them.
    Every value of the rolling-min series is the smallest low of these
    bars. *)
Theorem rolling_values_are_window_extremes (high low : list Q) (w i : nat) :
  (forall a, nth_error (max_waves_temp high w) i = Some (Some a) ->
             (exists j, S i - w <= j <= i /\ nth_error high j = Some a)
             /\ forall j v, S i - w <= j <= i -> nth_error high j = Some v ->
                            (v <= a)%Q)
  /\ (forall b, nth_error (min_waves_temp low w) i = Some (Some b) ->
                (exists j, S i - w <= j <= i /\ nth_error low j = Some b)
                /\ forall j v, S i - w <= j <= i -> nth_error low j = Some v ->
                               (b <= v)%Q).
Proof.
  unfold max_waves_temp, min_waves_temp. split.
  - intros a Ha. apply rolling_nth_error in Ha as (Hi & Hw & Hred). split.
    + apply (window_in w i high a Hw).
      eapply reduce_in; [apply qmax_cases|exact Hred].
    + intros j v Hj Hv. eapply reduce_qmax_upper; [exact Hred|].
      now apply (in_window w i high j).
  - intros b Hb. apply rolling_nth_error in Hb as (Hi & Hw & Hred). split.
    + apply (window_in w i low b Hw).
      eapply reduce_in; [apply qmin_cases|exact Hred].
    + intros j v Hj Hv. eapply reduce_qmin_lower; [exact Hred|].
      now apply (in_window w i low j).
Qed.

(** On bars whose low is not above their high, the rolling minimum at a
    position is not above the rolling maximum at that position: the trough
    candidate of a bar never lies over its peak candidate. *)
Theorem rolling_min_below_rolling_max (high low : list Q) (w i : nat) a b :
  Forall2 Qle low high ->
  nth_error (max_waves_temp high w) i = Some (Some a) ->
  nth_error (min_waves_temp low w) i = Some (Some b) ->
  (b <= a)%Q.
Proof.
  unfold max_waves_temp, min_waves_temp. intros Hbars Ha Hb.
  apply rolling_nth_error in Ha as (Hih & Hw & Hmax).
  apply rolling_nth_error in Hb as (Hil & _ & Hmin).
  assert (Hw1 : 1 <= w).
  { pose proof (window_length w i high Hih Hw) as Hlen.
    destruct (Rolling.window w i high); [discriminate Hmax|simpl in Hlen; lia]. }
  destruct (nth_error high i) as [h|] eqn:Hh;
    [|apply nth_error_None in Hh; lia].
  destruct (nth_error low i) as [l|] eqn:Hl;
    [|apply nth_error_None in Hl; lia].
  apply Qle_trans with l.
  - eapply reduce_qmin_lower; [exact Hmin|].
    apply (in_window w i low i); [assumption|assumption|lia|assumption].
  - apply Qle_trans with h.
    + exact (Forall2_nth_error _ _ _ _ _ _ Hbars Hl Hh).
    + eapply reduce_qmax_upper; [exact Hmax|].
      apply (in_window w i high i); [assumption|assumption|lia|assumption].
Qed.

(** [rolling_values_are_window_extremes] at work: the rolling maximum 12 at
    position 2 is not below the high 11 of that bar. *)
Lemma rolling_values_are_window_extremes_witness : (11 <= 12)%Q.
Proof.
  apply (proj2 (proj1 (rolling_values_are_window_extremes
                         [10%Q; 12%Q; 11%Q] [9%Q; 10%Q; 9%Q] 2 2)
                      12%Q eq_refl) 2 11%Q); [lia|reflexivity].
Defined.

(** [rolling_min_below_rolling_max] at work on the same three bars. *)
Lemma rolling_min_below_rolling_max_witness : (9 <= 12)%Q.
Proof.
  apply (rolling_min_below_rolling_max
           [10%Q; 12%Q; 11%Q] [9%Q; 10%Q; 9%Q] 2 2 12%Q 9%Q);
    [|reflexivity|reflexivity].
  repeat constructor; unfold Qle; simpl; lia.
Defined.

(** ** The wave series: order, polarity, values *)

Section WaveOrder.

Context {E : Externals} {C : Contract E}.

Lemma is_monotonic_sorted ks :
  Frame.is_monotonic_increasing ks = true -> Sorted le ks.
Proof.
  induction ks as [|a ks IH]; [constructor|].
  destruct ks as [|b ks]; [repeat constructor|].
  cbn [Frame.is_monotonic_increasing]. intros H.
  apply andb_prop in H as [Hab Hrest]. apply Nat.leb_le in Hab.
  constructor; [now apply IH|now constructor].
Qed.

Lemma labels_taken rows ps :
  Forall (fun p => p < length rows) ps ->
  map label (flat_map (fun p => match nth_error rows p with
                                | Some r => [r]
                                | None => []
                                end) ps)
  = map (fun p => nth p (map label rows) 0) ps.
Proof.
  induction 1 as [|p ps Hp _ IH]; simpl; [reflexivity|].
  destruct (nth_error rows p) as [r|] eqn:Hr;
    [|apply nth_error_None in Hr; lia].
  simpl. rewrite IH. f_equal. symmetry.
  apply nth_error_nth. now apply map_nth_error.
Qed.

(** After [sort_index] the index labels do not decrease. *)
Lemma sort_index_sorted rows : Sorted le (map label (sort_index rows)).
Proof.
  unfold sort_index.
  destruct (Frame.is_monotonic_increasing (map label rows)) eqn:Hmono.
  - now apply is_monotonic_sorted.
  - rewrite labels_taken.
    + apply Sorted_LocallySorted_iff, argsort_sorted.
    + apply Forall_forall. intros p Hp.
      apply (Permutation_in _ (argsort_perm (map label rows))) in Hp.
      apply in_seq in Hp. rewrite length_map in Hp. lia.
Qed.

Lemma select_cons r rest b mask :
  Frame.select (r :: rest) (b :: mask)
  = if b then r :: Frame.select rest mask else Frame.select rest mask.
Proof. unfold Frame.select. simpl. now destruct b. Qed.

Lemma select_sorted rows mask :
  StronglySorted le (map label rows) ->
  StronglySorted le (map label (Frame.select rows mask)).
Proof.
  revert mask. induction rows as [|r rest IH]; intros mask Hs.
  - destruct mask; constructor.
  - destruct mask as [|b mask]; [constructor|].
    simpl in Hs. apply StronglySorted_inv in Hs as [Hrest Hall].
    rewrite select_cons. destruct b; [|now apply IH].
    simpl. constructor; [now apply IH|].
    rewrite Forall_forall in *. intros l Hl.
    apply in_map_iff in Hl as (r' & <- & Hin). apply Hall.
    apply in_map. eapply select_incl; eauto.
Qed.

Lemma dropna_sorted rows :
  StronglySorted le (map label rows) ->
  StronglySorted le (map wlabel (Frame.dropna rows)).
Proof.
  induction rows as [|r rest IH]; intros Hs; [constructor|].
  simpl in Hs. apply StronglySorted_inv in Hs as [Hrest Hall].
  unfold Frame.dropna. simpl. fold (Frame.dropna rest).
  destruct (waves_ r) as [v|]; simpl; [|now apply IH].
  constructor; [now apply IH|].
  rewrite Forall_forall in *. intros l Hl.
  apply in_map_iff in Hl as (p & <- & Hin).
  apply dropna_in in Hin as (r' & Hr' & _ & <- & _).
  apply Hall. now apply in_map.
Qed.

Lemma selected_sorted high low w :
  StronglySorted le
    (map label (Frame.select (merged high low w)
                             (polarity_changes (merged high low w)))).
Proof.
  apply select_sorted, Sorted_StronglySorted; [exact Nat.le_trans|].
  apply sort_index_sorted.
Qed.

(** The wave series is in bar order: going down the series, the index label
    (the bar a wave point was taken at) never decreases. *)
Theorem waves_in_bar_order high low w :
  StronglySorted le (map wlabel (waves high low w)).
Proof. unfold waves. apply dropna_sorted, selected_sorted. Qed.

End WaveOrder.

(** [waves_in_bar_order] with the reference instance in place, on the ten
    bars of the specification's scenario. *)
Lemma waves_in_bar_order_witness :
  StronglySorted le
    (map wlabel
       (@waves reference_externals
          [10; 12; 11; 15; 14; 16; 13; 17; 12; 18]%Q
          [9; 10; 9; 13; 12; 14; 11; 15; 10; 16]%Q 2)).
Proof.
  exact (@waves_in_bar_order reference_externals reference_contract _ _ 2).
Defined.

Section WavePolarity.

Context {E : Externals} {C : Contract E}.

(** The mask of line 93 keeps a row when its polarity differs from that of
    the row before it. *)
Lemma keep_changes_mask prev rows :
  Frame.select rows
    (map (fun ab => float_neb (Some (fst ab)) (snd ab))
         (combine (map col0 rows)
                  (prev :: map Some (removelast (map col0 rows)))))
  = keep_changes prev rows.
Proof.
  revert prev. induction rows as [|r rest IH]; intros prev; [reflexivity|].
  destruct rest as [|r' rest'].
  - cbn [map combine removelast fst snd]. rewrite select_cons.
    cbn [keep_changes].
    now destruct (float_neb (Some (col0 r)) prev).
  - change (map col0 (r :: r' :: rest'))
      with (col0 r :: map col0 (r' :: rest')).
    change (removelast (col0 r :: map col0 (r' :: rest')))
      with (col0 r :: removelast (map col0 (r' :: rest'))).
    cbn [map combine fst snd]. rewrite select_cons.
    cbn [keep_changes].
    specialize (IH (Some (col0 r))).
    cbn [map combine fst snd keep_changes] in IH. rewrite IH.
    reflexivity.
Qed.

Lemma keep_changes_select rows :
  Frame.select rows (polarity_changes rows) = keep_changes NaN rows.
Proof.
  destruct rows as [|r rest]; [reflexivity|].
  rewrite <- keep_changes_mask. reflexivity.
Qed.

Lemma Qeq_bool_false_trans a b c :
  Qeq_bool a b = false -> Qeq_bool b c = true -> Qeq_bool a c = false.
Proof.
  intros Hab Hbc. destruct (Qeq_bool a c) eqn:Hac; [|reflexivity].
  apply Qeq_bool_iff in Hbc, Hac.
  assert (H : Qeq_bool a b = true)
    by (apply Qeq_bool_iff; rewrite Hac; now symmetry).
  congruence.
Qed.

(** The first row kept after a row of polarity [c] has another polarity. *)
Lemma keep_changes_head c rows h t :
  keep_changes (Some c) rows = h :: t -> Qeq_bool (col0 h) c = false.
Proof.
  revert c. induction rows as [|r rest IH]; intros c; simpl; [discriminate|].
  destruct (Qeq_bool (col0 r) c) eqn:Hrc; simpl.
  - intros H. apply IH in H. eapply Qeq_bool_false_trans; eauto.
  - now intros [= <- _].
Qed.

Lemma keep_changes_alternates prev rows :
  alternating_rows (keep_changes prev rows) = true.
Proof.
  revert prev. induction rows as [|r rest IH]; intros prev; [reflexivity|].
  cbn [keep_changes]. destruct (float_neb (Some (col0 r)) prev); [|apply IH].
  specialize (IH (Some (col0 r))).
  destruct (keep_changes (Some (col0 r)) rest) as [|h t] eqn:Hk;
    [reflexivity|].
  change (alternating_rows (r :: h :: t))
    with (negb (Qeq_bool (col0 r) (col0 h)) && alternating_rows (h :: t)).
  rewrite IH, andb_true_r.
  apply keep_changes_head in Hk.
  destruct (Qeq_bool (col0 r) (col0 h)) eqn:Heq; [|reflexivity].
  assert (Hsym : Qeq_bool (col0 h) (col0 r) = true)
    by (apply Qeq_bool_iff; symmetry; now apply Qeq_bool_iff).
  congruence.
Qed.

(** In a frame in index order whose NaN rows lie under smaller labels than
    its other rows, [dropna] takes rows off the front only, and what
    alternates before alternates after. *)
Lemma dropna_alternates rows :
  StronglySorted le (map label rows) ->
  (forall r r' v, In r rows -> In r' rows ->
                  waves_ r = None -> waves_ r' = Some v -> label r < label r') ->
  alternating_rows rows = true ->
  alternating (Frame.dropna rows) = true.
Proof.
  induction rows as [|r rest IH]; intros Hs Hnan Halt; [reflexivity|].
  simpl in Hs. apply StronglySorted_inv in Hs as [Hrest Hall].
  assert (IH' : alternating (Frame.dropna rest) = true).
  { apply IH; [assumption| |].
    - intros a b v Ha Hb. apply Hnan; now right.
    - destruct rest as [|r' rest']; [reflexivity|].
      change (alternating_rows (r :: r' :: rest'))
        with (negb (Qeq_bool (col0 r) (col0 r'))
              && alternating_rows (r' :: rest')) in Halt.
      now apply andb_prop in Halt. }
  unfold Frame.dropna. cbn [flat_map]. fold (Frame.dropna rest).
  destruct (waves_ r) as [v|] eqn:Hv; [|exact IH']. simpl app.
  destruct rest as [|r' rest']; [reflexivity|].
  destruct (waves_ r') as [v'|] eqn:Hv'.
  - change (alternating_rows (r :: r' :: rest'))
      with (negb (Qeq_bool (col0 r) (col0 r'))
            && alternating_rows (r' :: rest')) in Halt.
    apply andb_prop in Halt as [Hd _].
    unfold Frame.dropna in *. cbn [flat_map] in *. rewrite Hv' in *.
    simpl app in *.
    change (alternating (mkwave (label r) v (col0 r)
                           :: mkwave (label r') v' (col0 r')
                           :: flat_map
                                (fun r0 => match waves_ r0 with
                                           | Some v0 =>
                                               [mkwave (label r0) v0 (col0 r0)]
                                           | None => []
                                           end) rest'))
      with (negb (Qeq_bool (col0 r) (col0 r'))
            && alternating (mkwave (label r') v' (col0 r')
                              :: flat_map
                                   (fun r0 => match waves_ r0 with
                                              | Some v0 =>
                                                  [mkwave (label r0) v0 (col0 r0)]
                                              | None => []
                                              end) rest')).
    now rewrite Hd, IH'.
  - exfalso.
    assert (Hlt : label r' < label r)
      by (apply (Hnan r' r v); simpl; auto).
    rewrite Forall_forall in Hall.
    specialize (Hall (label r') (or_introl eq_refl)). lia.
Qed.

Lemma in_combine_seq {A} (s : list A) a i v :
  In (i, v) (combine (seq a (length s)) s) ->
  a <= i /\ nth_error s (i - a) = Some v.
Proof.
  revert a. induction s as [|x s IH]; intros a; simpl; [tauto|].
  intros [[= <- <-]|Hin].
  - rewrite Nat.sub_diag. auto.
  - apply IH in Hin as [Hle Hnth].
    replace (i - a) with (S (i - S a)) by lia. split; [lia|exact Hnth].
Qed.

Lemma with_polarity_nth s p r :
  In r (Frame.with_polarity s p) -> nth_error s (label r) = Some (waves_ r).
Proof.
  unfold Frame.with_polarity. intros H.
  apply in_map_iff in H as ([i v] & <- & Hin). simpl.
  apply in_combine_seq in Hin as [_ Hnth]. now rewrite Nat.sub_0_r in Hnth.
Qed.

(** NaN fills the series from the front. *)
Lemma rolling_nan_down f w xs i j :
  nth_error (Rolling.rolling f w xs) i = Some NaN -> j <= i ->
  nth_error (Rolling.rolling f w xs) j = Some NaN.
Proof.
  intros Hi Hj.
  assert (Hlen : i < length xs).
  { rewrite <- (rolling_length f w xs). apply nth_error_Some. congruence. }
  destruct w as [|w].
  - unfold Rolling.rolling. rewrite nth_error_map, nth_error_seq.
    replace (j <? length xs) with true by (symmetry; apply Nat.ltb_lt; lia).
    reflexivity.
  - apply rolling_nan_positions in Hi; [|lia|assumption].
    apply rolling_nan_positions; lia.
Qed.

(** A row that [drop_duplicates] keeps has no equal value before it. *)
Lemma kept_is_first seen rows r :
  In r (Frame.drop_from seen rows) ->
  exists pre post,
    rows = pre ++ r :: post
    /\ forall r', In r' pre -> float_eqb (waves_ r) (waves_ r') = false.
Proof.
  revert seen. induction rows as [|r0 rest IH]; intros seen; simpl; [tauto|].
  destruct (existsb (float_eqb (waves_ r0)) seen) eqn:H0.
  - intros Hin. pose proof (drop_from_fresh _ _ _ Hin) as Hfresh.
    apply IH in Hin as (pre & post & -> & Hpre).
    exists (r0 :: pre), post. split; [reflexivity|].
    intros r' [<-|Hr']; [|auto].
    destruct (float_eqb (waves_ r) (waves_ r0)) eqn:Heq; [|reflexivity].
    rewrite (seen_upto_eq _ _ _ Heq H0) in Hfresh. discriminate.
  - intros [<-|Hin].
    + exists [], rest. split; [reflexivity|]. intros r' [].
    + pose proof (drop_from_fresh _ _ _ Hin) as Hfresh. simpl in Hfresh.
      apply orb_false_elim in Hfresh as [Hfresh _].
      apply IH in Hin as (pre & post & -> & Hpre).
      exists (r0 :: pre), post. split; [reflexivity|].
      intros r' [<-|Hr']; [assumption|auto].
Qed.

(** The one NaN row that deduplication leaves to a polarity is the row of
    the first bar. *)
Lemma kept_nan_row_is_first f w xs p r :
  In r (Frame.drop_duplicates (Frame.with_polarity (Rolling.rolling f w xs) p)) ->
  waves_ r = None ->
  label r = 0 /\ nth_error (Rolling.rolling f w xs) 0 = Some NaN.
Proof.
  intros Hin Hnan.
  pose proof (drop_duplicates_incl _ _ Hin) as Hrow.
  apply with_polarity_nth in Hrow. rewrite Hnan in Hrow.
  pose proof (rolling_nan_down f w xs _ 0 Hrow ltac:(lia)) as Hzero.
  split; [|exact Hzero].
  apply kept_is_first in Hin as (pre & post & Hrows & Hpre).
  destruct pre as [|r0 pre].
  - unfold Frame.with_polarity in Hrows.
    destruct (Rolling.rolling f w xs) as [|v s]; [discriminate|].
    simpl in Hrows. now injection Hrows as <- _.
  - exfalso. specialize (Hpre r0 (or_introl eq_refl)).
    unfold Frame.with_polarity in Hrows.
    destruct (Rolling.rolling f w xs) as [|v s]; [discriminate|].
    simpl in Hrows, Hzero. injection Hrows as <- _. simpl in Hpre.
    injection Hzero as ->. rewrite Hnan in Hpre. discriminate.
Qed.

Lemma kept_value_row_label f w xs p r v :
  In r (Frame.drop_duplicates (Frame.with_polarity (Rolling.rolling f w xs) p)) ->
  waves_ r = Some v -> 1 <= w <= S (label r).
Proof.
  intros Hin Hv. apply drop_duplicates_incl, with_polarity_nth in Hin.
  rewrite Hv in Hin. apply rolling_nth_error in Hin as (Hlen & Hw & Hred).
  split; [|assumption].
  pose proof (window_length w (label r) xs Hlen Hw) as Hwl.
  destruct (Rolling.window w (label r) xs); [discriminate|simpl in Hwl; lia].
Qed.

Lemma kept_nan_row_window f w xs p r :
  In r (Frame.drop_duplicates (Frame.with_polarity (Rolling.rolling f w xs) p)) ->
  waves_ r = None -> 1 <= w -> label r = 0 /\ 1 < w.
Proof.
  intros Hin Hnan Hw.
  destruct (kept_nan_row_is_first _ _ _ _ _ Hin Hnan) as [H0 Hfirst].
  split; [assumption|].
  apply (rolling_nan_positions f w xs 0); [assumption| |assumption].
  rewrite <- (rolling_length f w xs). apply nth_error_Some. congruence.
Qed.

(** Among the rows of both polarities, the NaN rows lie under smaller index
    labels than the rows that hold a value. *)
Lemma nan_rows_come_first high low w r r' v :
  In r (max_waves high w ++ min_waves low w) ->
  In r' (max_waves high w ++ min_waves low w) ->
  waves_ r = None -> waves_ r' = Some v -> label r < label r'.
Proof.
  unfold max_waves, min_waves, max_waves_temp, min_waves_temp.
  intros Hr Hr' Hnan Hv.
  assert (Hw' : 1 <= w <= S (label r'))
    by (apply in_app_or in Hr' as [Hr'|Hr'];
        eapply kept_value_row_label; eauto).
  assert (Hzero : label r = 0 /\ 1 < w)
    by (apply in_app_or in Hr as [Hr|Hr];
        eapply kept_nan_row_window; eauto; lia).
  lia.
Qed.

(** On columns in which every price is there, polarity alternates along the
    wave series. *)
Lemma waves_alternate_in_polarity high low w :
  alternating (waves high low w) = true.
Proof.
  unfold waves. apply dropna_alternates.
  - apply selected_sorted.
  - intros r r' v Hr Hr'.
    apply select_incl in Hr, Hr'. unfold merged in Hr, Hr'.
    apply sort_index_incl in Hr, Hr'.
    now apply (nan_rows_come_first high low w).
  - rewrite keep_changes_select. apply keep_changes_alternates.
Qed.

End WavePolarity.

Section WaveValues.

Context {E : Externals} {C : Contract E}.

(** Rows that hold [v] are all dropped once [v] has been seen. *)
Lemma drop_from_seen_value v seen rows :
  existsb (float_eqb v) seen = true ->
  filter (fun r => float_eqb (waves_ r) v) (Frame.drop_from seen rows) = [].
Proof.
  intros Hseen.
  destruct (filter _ (Frame.drop_from seen rows)) as [|r t] eqn:Hf;
    [reflexivity|].
  assert (Hin : In r (filter (fun r => float_eqb (waves_ r) v)
                             (Frame.drop_from seen rows)))
    by (rewrite Hf; now left).
  apply filter_In in Hin as [Hin Heq].
  apply drop_from_fresh in Hin.
  rewrite (seen_upto_eq _ _ _ Heq Hseen) in Hin. discriminate.
Qed.

(** [drop_duplicates] leaves at most one row to a value. *)
Lemma drop_from_value_once v seen rows :
  length (filter (fun r => float_eqb (waves_ r) v) (Frame.drop_from seen rows))
  <= 1.
Proof.
  revert seen. induction rows as [|r rest IH]; intros seen; simpl; [lia|].
  destruct (existsb (float_eqb (waves_ r)) seen); [apply IH|].
  simpl. destruct (float_eqb (waves_ r) v) eqn:Heq; [|apply IH].
  rewrite drop_from_seen_value; [simpl; lia|].
  simpl. now rewrite float_eqb_sym, Heq.
Qed.

Lemma polarity_rows_once f w xs p v pol :
  length (filter (fun r => float_eqb (waves_ r) (Some v) && Qeq_bool (col0 r) pol)
                 (Frame.drop_duplicates
                    (Frame.with_polarity (Rolling.rolling f w xs) p)))
  <= if Qeq_bool p pol then 1 else 0.
Proof.
  destruct (Qeq_bool p pol) eqn:Hp.
  - etransitivity; [|apply (drop_from_value_once (Some v) []
                              (Frame.with_polarity (Rolling.rolling f w xs) p))].
    unfold Frame.drop_duplicates.
    induction (Frame.drop_from [] _) as [|r rows IH]; simpl; [lia|].
    destruct (float_eqb (waves_ r) (Some v)); simpl;
      [destruct (Qeq_bool (col0 r) pol); simpl; lia|lia].
  - replace (filter _ _) with (@nil row); [simpl; lia|]. symmetry.
    destruct (filter _ _) as [|r t] eqn:Hf; [reflexivity|].
    assert (Hin : In r (r :: t)) by now left.
    rewrite <- Hf in Hin. apply filter_In in Hin as [Hin Hr].
    apply drop_duplicates_incl, with_polarity_in in Hin as [_ Hcol].
    rewrite Hcol, Hp, andb_false_r in Hr. discriminate.
Qed.

Lemma dropna_value_le v pol rows :
  length (waves_of_value v pol (Frame.dropna rows))
  <= length (filter (fun r => float_eqb (waves_ r) (Some v)
                              && Qeq_bool (col0 r) pol) rows).
Proof.
  unfold waves_of_value, Frame.dropna.
  induction rows as [|r rest IH]; simpl; [lia|].
  rewrite filter_app, length_app.
  destruct (waves_ r) as [u|]; simpl.
  - destruct (Qeq_bool u v && Qeq_bool (col0 r) pol); simpl; lia.
  - lia.
Qed.

(** No value is held by two wave points of the same polarity: what
    lines 89-90 drop stays dropped through the merge, the polarity mask and
    [dropna]. *)
Theorem wave_values_differ_within_a_polarity high low w v pol :
  length (waves_of_value v pol (waves high low w)) <= 1.
Proof.
  unfold waves, merged.
  etransitivity; [apply dropna_value_le|].
  etransitivity; [apply select_filter_le|].
  rewrite (perm_filter_length _ _ _ (sort_index_perm _)).
  rewrite filter_app, length_app.
  pose proof (polarity_rows_once qmax w high 1%Q v pol) as Hmax.
  pose proof (polarity_rows_once qmin w low (-1 # 1)%Q v pol) as Hmin.
  unfold max_waves, min_waves, max_waves_temp, min_waves_temp.
  destruct (Qeq_bool 1 pol) eqn:H1; destruct (Qeq_bool (-1 # 1) pol) eqn:H2;
    try lia.
  exfalso. apply Qeq_bool_iff in H1, H2.
  assert (Habs : (1 == -1 # 1)%Q) by (rewrite H1; now symmetry).
  discriminate Habs.
Qed.

End WaveValues.

(** [wave_values_differ_within_a_polarity] with the reference instance in
    place: in the ten-bar scenario the price 12 is a peak once (and a trough
    once). *)
Lemma wave_values_differ_within_a_polarity_witness :
  length (waves_of_value 12%Q 1%Q
            (@waves reference_externals
               [10; 12; 11; 15; 14; 16; 13; 17; 12; 18]%Q
               [9; 10; 9; 13; 12; 14; 11; 15; 10; 16]%Q 2)) <= 1.
Proof.
  exact (@wave_values_differ_within_a_polarity reference_externals
           reference_contract _ _ 2 12%Q 1%Q).
Defined.

(** ** The script: the date range and the colours of the volume bars *)

Section Script.

Lemma timedelta_positive i : (1 <= timedelta i)%Z.
Proof. destruct i; simpl; lia. Qed.

Lemma check_range_passed start end_ i :
  check_range start end_ i = Passed ->
  (start + timedelta i <= date_max)%Z /\ (start + timedelta i <= end_)%Z.
Proof.
  unfold check_range.
  destruct (date_max <? start + timedelta i)%Z eqn:Hmax; [discriminate|].
  destruct (end_ <? start + timedelta i)%Z eqn:Hend; [discriminate|].
  apply Z.ltb_ge in Hmax, Hend. auto.
Qed.

(** What one pass of the loop of lines 131-138 appends for bar [i]. *)
Lemma colors_as_map close :
  colors close
  = map (fun i => if negb (i =? 0)
                  then if qgtb (nth i close 0%Q) (nth (i - 1) close 0%Q)
                       then lightgreen else lightcoral
                  else lightcoral)
        (seq 0 (length close)).
Proof.
  unfold colors.
  set (g := fun i => if negb (i =? 0)
                     then if qgtb (nth i close 0%Q) (nth (i - 1) close 0%Q)
                          then lightgreen else lightcoral
                     else lightcoral).
  assert (H : forall l acc,
             fold_left
               (fun colors i =>
                  if negb (i =? 0)
                  then if qgtb (nth i close 0%Q) (nth (i - 1) close 0%Q)
                       then colors ++ [lightgreen]
                       else colors ++ [lightcoral]
                  else colors ++ [lightcoral]) l acc
             = acc ++ map g l).
  { induction l as [|i l IH]; intros acc; simpl.
    - now rewrite app_nil_r.
    - rewrite IH. unfold g at 2.
      destruct (negb (i =? 0));
        [destruct (qgtb (nth i close 0%Q) (nth (i - 1) close 0%Q))|];
        now rewrite <- app_assoc. }
  now rewrite H.
Qed.

Lemma qgtb_lt a b : qgtb b a = true <-> (a < b)%Q.
Proof.
  unfold qgtb. rewrite Qgt_alt.
  destruct (b ?= a)%Q; split; congruence.
Qed.

End Script.

(** A date range that gets past lines 54-55 is never empty: the end lies
    after the start, by at least one step of the chosen interval, and that
    step is at least a day. *)
Theorem passed_range_spans_a_step start end_ i :
  check_range start end_ i = Passed ->
  (start < end_)%Z /\ (1 <= timedelta i <= end_ - start)%Z.
Proof.
  intros H. apply check_range_passed in H as [_ H].
  pose proof (timedelta_positive i). lia.
Qed.

(** A range that passes the check for one interval passes it for every
    interval of a shorter or equal step: what is accepted for ['3mo'] is
    accepted for all five. *)
Theorem passed_range_passes_shorter_steps start end_ i j :
  check_range start end_ i = Passed ->
  (timedelta j <= timedelta i)%Z ->
  check_range start end_ j = Passed.
Proof.
  intros H Hstep. apply check_range_passed in H as [Hmax Hend].
  unfold check_range.
  replace (date_max <? start + timedelta j)%Z with false
    by (symmetry; apply Z.ltb_ge; lia).
  replace (end_ <? start + timedelta j)%Z with false
    by (symmetry; apply Z.ltb_ge; lia).
  reflexivity.
Qed.

(** The loop of lines 129-138 gives every bar one colour: the first bar is
    lightcoral, and every later bar is lightgreen when it closed above the
    bar before it and lightcoral when it did not (an equal close
    included). *)
Theorem volume_colours_follow_the_close (close : list Q) :
  length (colors close) = length close
  /\ (forall c, nth_error (colors close) 0 = Some c -> c = lightcoral)
  /\ forall i a b,
       nth_error close i = Some a -> nth_error close (S i) = Some b ->
       ((a < b)%Q -> nth_error (colors close) (S i) = Some lightgreen)
       /\ ((b <= a)%Q -> nth_error (colors close) (S i) = Some lightcoral).
Proof.
  rewrite colors_as_map. split; [now rewrite length_map, length_seq|]. split.
  - intros c. rewrite nth_error_map, nth_error_seq.
    destruct (0 <? length close); simpl; now intros [= <-].
  - intros i a b Ha Hb.
    assert (Hlen : S i < length close)
      by (apply nth_error_Some; congruence).
    rewrite nth_error_map, nth_error_seq.
    replace (S i <? length close) with true
      by (symmetry; now apply Nat.ltb_lt).
    cbn [option_map Nat.add Nat.eqb negb].
    replace (S i - 1) with i by lia.
    rewrite (nth_error_nth _ _ 0%Q Ha), (nth_error_nth _ _ 0%Q Hb).
    destruct (qgtb b a) eqn:Hgt; split; intros H; try reflexivity.
    + apply qgtb_lt in Hgt. exfalso. now apply (Qlt_not_le a b).
    + apply qgtb_lt in H. congruence.
Qed.

(** The defaults of the script: 2022-01-01 to 2023-01-01, interval ['1d']. *)
Lemma passed_range_spans_a_step_witness :
  (738156 < 738521)%Z /\ (1 <= timedelta I1d <= 738521 - 738156)%Z.
Proof.
  apply (passed_range_spans_a_step 738156 738521 I1d). reflexivity.
Defined.

(** The same range, accepted for ['3mo'], hence for ['1wk']. *)
Lemma passed_range_passes_shorter_steps_witness :
  check_range 738156 738521 I1wk = Passed.
Proof.
  apply (passed_range_passes_shorter_steps 738156 738521 I3mo I1wk).
  - reflexivity.
  - simpl. lia.
Defined.

(** [volume_colours_follow_the_close] at work on the closes 10, 11, 11: the
    second bar is lightgreen. *)
Lemma volume_colours_follow_the_close_witness :
  nth_error (colors [10%Q; 11%Q; 11%Q]) 1 = Some lightgreen.
Proof.
  apply (proj1 (proj2 (proj2 (volume_colours_follow_the_close
                                [10%Q; 11%Q; 11%Q]))
                      0 10%Q 11%Q eq_refl eq_refl)).
  unfold Qlt. simpl. lia.
Defined.

(** ** Wave points and bars; ties in [idxmax] *)

Section WaveBars.

Context {E : Externals} {C : Contract E}.

Lemma kept_row_in_range f w xs p r :
  In r (Frame.drop_duplicates (Frame.with_polarity (Rolling.rolling f w xs) p)) ->
  label r < length xs.
Proof.
  intros Hin. apply drop_duplicates_incl, with_polarity_nth in Hin.
  rewrite <- (rolling_length f w xs). apply nth_error_Some. congruence.
Qed.

(** A wave point sits on a bar at which the window was full (so its index
    label is at least [w-1] and is the label of a bar), and a bar gives at
    most two wave points, its peak and its trough. *)
Theorem wave_points_sit_on_full_windows high low w :
  (forall p, In p (waves high low w) ->
             1 <= w <= S (wlabel p)
             /\ wlabel p < Nat.max (length high) (length low))
  /\ forall l, length (waves_at l (waves high low w)) <= 2.
Proof.
  split; [|intros l; apply waves_at_most_two].
  intros p Hp. apply waves_origin in Hp as (r & Hr & Hv & <- & _).
  unfold max_waves, min_waves, max_waves_temp, min_waves_temp in Hr.
  apply in_app_or in Hr as [Hr|Hr].
  - split; [eapply kept_value_row_label; eauto|].
    apply kept_row_in_range in Hr. lia.
  - split; [eapply kept_value_row_label; eauto|].
    apply kept_row_in_range in Hr. lia.
Qed.

Lemma fold_first_maximum rest b :
  let pick := fun best q => match (value q ?= value best)%Q with
                            | Gt => q
                            | _ => best
                            end in
  exists pre post,
    b :: rest = pre ++ fold_left pick rest b :: post
    /\ (forall p, In p pre -> (value p < value (fold_left pick rest b))%Q)
    /\ (forall p, In p post -> (value p <= value (fold_left pick rest b))%Q).
Proof.
  intros pick. revert b. induction rest as [|q rest IH]; intros b.
  - exists [], []. simpl. split; [reflexivity|]. split; intros p [].
  - assert (Hpick : (pick b q = b /\ (value q <= value b)%Q)
                    \/ (pick b q = q /\ (value b < value q)%Q)).
    { unfold pick. destruct (Qcompare_spec (value q) (value b)) as [H|H|H].
      - left. split; [reflexivity|]. rewrite H. apply Qle_refl.
      - left. split; [reflexivity|]. now apply Qlt_le_weak.
      - now right. }
    cbn [fold_left]. destruct Hpick as [[-> Hle]|[-> Hlt]].
    + destruct (IH b) as (pre & post & Hg & Hpre & Hpost).
      remember (fold_left pick rest b) as m eqn:Hm. clear Hm.
      destruct pre as [|b' pre]; simpl in Hg; injection Hg as Hb Hrest.
      * subst m rest. exists [], (q :: post). simpl.
        split; [reflexivity|]. split; [intros p []|].
        intros p [<-|Hp]; [exact Hle|now apply Hpost].
      * subst b' rest. exists (b :: q :: pre), post. simpl.
        split; [reflexivity|]. split; [|exact Hpost].
        intros p [<-|[<-|Hp]].
        -- apply Hpre. now left.
        -- eapply Qle_lt_trans; [exact Hle|]. apply Hpre. now left.
        -- apply Hpre. now right.
    + destruct (IH q) as (pre & post & Hg & Hpre & Hpost).
      remember (fold_left pick rest q) as m eqn:Hm. clear Hm.
      exists (b :: pre), post. simpl. rewrite Hg.
      split; [reflexivity|]. split; [|exact Hpost].
      intros p [<-|Hp]; [|now apply Hpre].
      destruct pre as [|q' pre]; simpl in Hg; injection Hg as Hq _.
      * now subst m.
      * subst q'. eapply Qlt_trans; [exact Hlt|]. apply Hpre. now left.
Qed.

(** [idxmax] breaks ties by position: it names the label of the first row
    of the group that holds the maximum.  Every row before it is strictly
    smaller, no row after it is larger. *)
Theorem idxmax_names_the_first_maximum g l :
  Frame.idxmax g = Some l ->
  exists pre m post,
    g = pre ++ m :: post /\ wlabel m = l
    /\ (forall p, In p pre -> (value p < value m)%Q)
    /\ (forall p, In p post -> (value p <= value m)%Q).
Proof.
  destruct g as [|b rest]; simpl; [discriminate|]. intros [= <-].
  destruct (fold_first_maximum rest b) as (pre & post & Hg & Hpre & Hpost).
  eexists pre, _, post. split; [exact Hg|]. auto.
Qed.

End WaveBars.

(** [level_count_bounds] at work on [one_bar]: one cluster, two levels. *)
Lemma level_count_bounds_witness : 1 <= length [12%Q; 10%Q] <= 2 * 1.
Proof.
  apply (@level_count_bounds reference_externals reference_contract one_bar
           1 1 (after_call one_bar) [12%Q; 10%Q] [12%Q] [10%Q]);
    reflexivity.
Defined.

(** [wave_points_sit_on_full_windows] with the reference instance in place:
    no bar of the ten-bar scenario gives more than two wave points. *)
Lemma wave_points_sit_on_full_windows_witness :
  length (waves_at 1
            (@waves reference_externals
               [10; 12; 11; 15; 14; 16; 13; 17; 12; 18]%Q
               [9; 10; 9; 13; 12; 14; 11; 15; 10; 16]%Q 2)) <= 2.
Proof.
  exact (proj2 (@wave_points_sit_on_full_windows reference_externals
                  reference_contract _ _ 2) 1).
Defined.

(** [idxmax_names_the_first_maximum] at work on a group with a tie: the
    values 12, 15, 15 under the labels 1, 3, 4. *)
Lemma idxmax_names_the_first_maximum_witness :
  exists pre m post,
    [mkwave 1 12%Q 1%Q; mkwave 3 15%Q 1%Q; mkwave 4 15%Q (-1 # 1)%Q]
    = pre ++ m :: post
    /\ wlabel m = 3
    /\ (forall p, In p pre -> (value p < value m)%Q)
    /\ (forall p, In p post -> (value p <= value m)%Q).
Proof.
  apply (idxmax_names_the_first_maximum
           [mkwave 1 12%Q 1%Q; mkwave 3 15%Q 1%Q; mkwave 4 15%Q (-1 # 1)%Q] 3).
  reflexivity.
Defined.

(** ** Missing prices *)

Section MissingPrices.

Context {E : Externals} {C : Contract E}.

Lemma step_nan f a b :
  RollingNaN.step f a b = NaN <-> a = NaN \/ b = NaN.
Proof.
  unfold NaN. destruct a as [x|], b as [y|]; simpl; split; intros H;
    try discriminate; auto; destruct H as [H|H]; discriminate.
Qed.

(** The reduction gives NaN exactly when a value of the window is
    missing. *)
Lemma fold_step_nan f rest x :
  fold_left (RollingNaN.step f) rest x = NaN <-> x = NaN \/ In NaN rest.
Proof.
  revert x. induction rest as [|y rest IH]; intros x; simpl.
  - tauto.
  - rewrite IH, step_nan. unfold NaN. split.
    + intros [[H|H]|H]; auto.
    + intros [H|[H|H]]; auto.
Qed.

Lemma reduce_nan f xs :
  RollingNaN.reduce f xs = NaN <-> xs = [] \/ In NaN xs.
Proof.
  destruct xs as [|x rest]; simpl.
  - split; auto.
  - rewrite fold_step_nan. unfold NaN. split.
    + intros [H|H]; right; auto.
    + intros [H|[H|H]]; [discriminate|auto..].
Qed.

Lemma float_window_length w i (xs : list float) :
  i < length xs -> w <= S i -> length (RollingNaN.window w i xs) = w.
Proof.
  intros Hi Hw. unfold RollingNaN.window.
  rewrite length_firstn, length_skipn. lia.
Qed.

Lemma float_window_holds w i (xs : list float) v :
  i < length xs -> w <= S i ->
  (In v (RollingNaN.window w i xs)
   <-> exists j, S i - w <= j <= i /\ nth_error xs j = Some v).
Proof.
  intros Hi Hw. unfold RollingNaN.window. split.
  - intros Hin. apply In_nth_error in Hin as [t Ht].
    rewrite nth_error_firstn in Ht.
    destruct (t <? w) eqn:Htw; [|discriminate]. apply Nat.ltb_lt in Htw.
    rewrite nth_error_skipn in Ht. exists (S i - w + t). split; [lia|exact Ht].
  - intros (j & Hj & Hv). apply (nth_error_In _ (j - (S i - w))).
    rewrite nth_error_firstn.
    replace (j - (S i - w) <? w) with true
      by (symmetry; apply Nat.ltb_lt; lia).
    rewrite nth_error_skipn.
    now replace (S i - w + (j - (S i - w))) with j by lia.
Qed.

Lemma float_rolling_length f w xs :
  length (RollingNaN.rolling f w xs) = length xs.
Proof. unfold RollingNaN.rolling. now rewrite length_map, length_seq. Qed.

Lemma float_rolling_nan f w xs i :
  1 <= w -> i < length xs ->
  (nth_error (RollingNaN.rolling f w xs) i = Some NaN
   <-> S i < w \/ exists j, S i - w <= j <= i /\ nth_error xs j = Some NaN).
Proof.
  intros Hw Hi. unfold RollingNaN.rolling.
  rewrite nth_error_map, nth_error_seq.
  replace (i <? length xs) with true by (symmetry; now apply Nat.ltb_lt).
  cbn [option_map Nat.add]. destruct (S i <? w) eqn:Hlt.
  - apply Nat.ltb_lt in Hlt. split; [now left|reflexivity].
  - apply Nat.ltb_ge in Hlt.
    pose proof (float_window_length w i xs Hi Hlt) as Hlen.
    pose proof (float_window_holds w i xs NaN Hi Hlt) as Hwin.
    pose proof (reduce_nan f (RollingNaN.window w i xs)) as Hred.
    split.
    + intros [= H]. apply Hred in H as [H|H].
      * rewrite H in Hlen. simpl in Hlen. lia.
      * right. now apply Hwin.
    + intros [H|H]; [lia|]. f_equal. apply Hred. right. now apply Hwin.
Qed.

Lemma fold_step_finite f rest x :
  fold_left (RollingNaN.step f) (map Some rest) (Some x)
  = Some (fold_left f rest x).
Proof.
  revert x. induction rest as [|y rest IH]; intros x; simpl; [reflexivity|].
  apply IH.
Qed.

(** On a column without NaN the two readings of lines 84-85 agree. *)
Lemma rolling_of_finite f w xs :
  RollingNaN.rolling f w (map Some xs) = Rolling.rolling f w xs.
Proof.
  unfold RollingNaN.rolling, Rolling.rolling. rewrite length_map.
  apply map_ext. intros i. destruct (S i <? w); [reflexivity|].
  unfold RollingNaN.window, Rolling.window. rewrite skipn_map, firstn_map.
  destruct (firstn w (skipn (S i - w) xs)) as [|x rest]; [reflexivity|].
  apply fold_step_finite.
Qed.

Lemma waves_of_finite high low w :
  waves_of_floats (map Some high) (map Some low) w = waves high low w.
Proof.
  unfold waves_of_floats. now rewrite !rolling_of_finite.
Qed.

Lemma finite_values xs : finite xs -> exists ys, xs = map Some ys.
Proof.
  induction 1 as [|v xs Hv _ [ys ->]]; [now exists []|].
  destruct v as [y|]; [|now contradiction Hv]. now exists (y :: ys).
Qed.

End MissingPrices.

(** The two rolling series have one entry per bar, and with a window of at
    least one bar an entry is NaN exactly when its window is not full (the
    first [w-1] bars) or one of the [w] prices that end at its position is
    missing. *)
Theorem rolling_is_nan_where_a_price_is_missing
    (high low : list float) (w : nat) :
  length (RollingNaN.rolling qmax w high) = length high
  /\ length (RollingNaN.rolling qmin w low) = length low
  /\ (1 <= w ->
      (forall i, i < length high ->
         (nth_error (RollingNaN.rolling qmax w high) i = Some NaN
          <-> S i < w
              \/ exists j, S i - w <= j <= i /\ nth_error high j = Some NaN))
      /\ (forall i, i < length low ->
            (nth_error (RollingNaN.rolling qmin w low) i = Some NaN
             <-> S i < w
                 \/ exists j, S i - w <= j <= i /\ nth_error low j = Some NaN))).
Proof.
  split; [apply float_rolling_length|]. split; [apply float_rolling_length|].
  intros Hw. split; intros i Hi; now apply float_rolling_nan.
Qed.

(** When no price of [High] and [Low] is missing, polarity alternates along
    the wave series: no two neighbouring wave points are both peaks or both
    troughs.  (With a missing price it need not: see
    [missing_price_joins_two_troughs].) *)
Theorem waves_alternate_without_missing_prices
    {E : Externals} {C : Contract E} (high low : list float) (w : nat) :
  finite high -> finite low ->
  alternating (waves_of_floats high low w) = true.
Proof.
  intros Hh Hl.
  apply finite_values in Hh as [hs ->]. apply finite_values in Hl as [ls ->].
  rewrite waves_of_finite. apply waves_alternate_in_polarity.
Qed.

(** The highs 12, NaN, 14 over the lows 10, 9, 8 with a window of one bar:
    [dropna] takes the NaN peak of the second bar out from between two
    troughs. *)
Lemma missing_price_joins_two_troughs :
  map polarity
      (@waves_of_floats reference_externals
         [Some 12%Q; NaN; Some 14%Q] [Some 10%Q; Some 9%Q; Some 8%Q] 1)
  = [1; -1 # 1; -1 # 1; 1; -1 # 1]%Q
  /\ alternating
       (@waves_of_floats reference_externals
          [Some 12%Q; NaN; Some 14%Q] [Some 10%Q; Some 9%Q; Some 8%Q] 1)
     = false.
Proof. split; reflexivity. Qed.

(** [rolling_is_nan_where_a_price_is_missing] at work on the highs 12, NaN,
    14 with a window of two bars: the entry of the third bar is NaN, for
    the price of the second bar is missing. *)
Lemma rolling_is_nan_where_a_price_is_missing_witness :
  nth_error (RollingNaN.rolling qmax 2 [Some 12%Q; NaN; Some 14%Q]) 2
  = Some NaN.
Proof.
  apply (proj1 (proj2 (proj2 (rolling_is_nan_where_a_price_is_missing
                                [Some 12%Q; NaN; Some 14%Q]
                                [Some 10%Q; Some 9%Q; Some 8%Q] 2))
                      ltac:(lia)) 2 ltac:(simpl; lia)).
  right. exists 1. split; [lia|reflexivity].
Defined.

(** [waves_alternate_without_missing_prices] with the reference instance in
    place, on the ten bars of the specification's scenario. *)
Lemma waves_alternate_without_missing_prices_witness :
  alternating
    (@waves_of_floats reference_externals
       (map Some [10; 12; 11; 15; 14; 16; 13; 17; 12; 18]%Q)
       (map Some [9; 10; 9; 13; 12; 14; 11; 15; 10; 16]%Q) 2) = true.
Proof.
  apply (@waves_alternate_without_missing_prices reference_externals
           reference_contract);
    repeat constructor; discriminate.
Defined.
